(** * gi.bridge: the stdio <-> TCP bridge of [internal/bridge/bridge.go]

    A shallow embedding of the three loops of the bridge
    ([handleIncoming], [handleAccept], [handleOutgoing]), of [Start] with
    the goroutines of its task group, and of [run],
    together with the parts of Go's standard library they call
    ([strings.TrimSpace], [strings.SplitN], [net.SplitHostPort],
    [bufio.Writer]), followed by the properties of the line protocol,
    of the connection registry and of the error handling.

    Go strings are byte sequences: they are modelled as [list ascii]
    (an [ascii] is one byte).  The registry [connMap] is a [gmap]. *)

From stdpp Require Import gmap strings list.
From Stdlib Require Import Ascii.

Abbreviation bytes := (list ascii).

(** String literals stand for their bytes. *)
Coercion String.list_ascii_of_string : string >-> list.

(** * Go's [strings] package *)
Module Strings.

Definition LF : ascii := "010"%char.
Definition CR : ascii := "013"%char.

(** [strings.asciiSpace]: '\t', '\n', '\v', '\f', '\r', ' '. *)
Definition asciiSpace (c : ascii) : bool :=
  match c with
  | "009" | "010" | "011" | "012" | "013" | " " => true
  | _ => false
  end%char.

(** The white space runes ([unicode.IsSpace]) whose UTF-8 encoding has two
    bytes: U+0085 (C2 85) and U+00A0 (C2 A0). *)
Definition space2 (c1 c2 : ascii) : bool :=
  Ascii.eqb c1 "194" && (Ascii.eqb c2 "133" || Ascii.eqb c2 "160").

(** The white space runes whose UTF-8 encoding has three bytes:
    U+1680 (E1 9A 80), U+2000..U+200A (E2 80 80 .. E2 80 8A),
    U+2028, U+2029 (E2 80 A8, E2 80 A9), U+202F (E2 80 AF),
    U+205F (E2 81 9F) and U+3000 (E3 80 80). *)
Definition space3 (c1 c2 c3 : ascii) : bool :=
  (Ascii.eqb c1 "225" && Ascii.eqb c2 "154" && Ascii.eqb c3 "128")
  || (Ascii.eqb c1 "226" && Ascii.eqb c2 "128"
      && ((N.leb 128 (N_of_ascii c3) && N.leb (N_of_ascii c3) 138)
          || Ascii.eqb c3 "168" || Ascii.eqb c3 "169" || Ascii.eqb c3 "175"))
  || (Ascii.eqb c1 "226" && Ascii.eqb c2 "129" && Ascii.eqb c3 "159")
  || (Ascii.eqb c1 "227" && Ascii.eqb c2 "128" && Ascii.eqb c3 "128").

(** Drop from the front of [s] every rune recognised by [p1] (one byte),
    [p2] (two bytes) or [p3] (three bytes); stop at the first byte that
    starts none.  An invalid or truncated encoding decodes to
    [utf8.RuneError], which is no space: the scan stops there. *)
Fixpoint trimFront (p1 : ascii → bool) (p2 : ascii → ascii → bool)
    (p3 : ascii → ascii → ascii → bool) (s : bytes) : bytes :=
  match s with
  | [] => []
  | c1 :: s1 =>
      if p1 c1 then trimFront p1 p2 p3 s1 else
      match s1 with
      | [] => s
      | c2 :: s2 =>
          if p2 c1 c2 then trimFront p1 p2 p3 s2 else
          match s2 with
          | [] => s
          | c3 :: s3 => if p3 c1 c2 c3 then trimFront p1 p2 p3 s3 else s
          end
      end
  end.

(** Whether a rune recognised by [p1], [p2] or [p3] starts [s]. *)
Definition runeAt (p1 : ascii → bool) (p2 : ascii → ascii → bool)
    (p3 : ascii → ascii → ascii → bool) (s : bytes) : bool :=
  match s with
  | [] => false
  | c1 :: s1 =>
      p1 c1 ||
      match s1 with
      | [] => false
      | c2 :: s2 =>
          p2 c1 c2 || match s2 with [] => false | c3 :: _ => p3 c1 c2 c3 end
      end
  end.

(** [strings.TrimLeftFunc(s, unicode.IsSpace)]. *)
Definition TrimLeftSpace (s : bytes) : bytes :=
  trimFront asciiSpace space2 space3 s.

(** [strings.TrimRightFunc(s, unicode.IsSpace)]: the same scan from the
    end ([utf8.DecodeLastRuneInString]), the bytes of a rune met in
    reverse order. *)
Definition TrimRightSpace (s : bytes) : bytes :=
  reverse (trimFront asciiSpace (λ c2 c1, space2 c1 c2)
                     (λ c3 c2 c1, space3 c1 c2 c3) (reverse s)).

(** [s] begins, respectively ends, with a white space rune. *)
Definition startsSpace (s : bytes) : bool := runeAt asciiSpace space2 space3 s.
Definition endsSpace (s : bytes) : bool :=
  runeAt asciiSpace (λ c2 c1, space2 c1 c2) (λ c3 c2 c1, space3 c1 c2 c3) (reverse s).

(** [strings.TrimSpace]: leading and trailing white space removed. *)
Definition TrimSpace (s : bytes) : bytes := TrimRightSpace (TrimLeftSpace s).

(** [strings.Index(s, sep)]: the first position of [sep] in [s]. *)
Fixpoint Index (s sep : bytes) : option nat :=
  if bool_decide (sep `prefix_of` s) then Some 0
  else match s with
       | [] => None
       | _ :: s' => S <$> Index s' sep
       end.

(** [strings.SplitN(s, sep, n)] for a non-empty [sep] and [n >= 0]: at
    most [n] substrings, the last one the unsplit remainder. *)
Fixpoint SplitN (s sep : bytes) (n : nat) : list bytes :=
  match n with
  | 0 => []
  | S n' =>
      match n' with
      | 0 => [s]
      | S _ =>
          match Index s sep with
          | None => [s]
          | Some m => take m s :: SplitN (drop (m + length sep) s) sep n'
          end
      end
  end.

(** [bytealg.IndexByteString] and [bytealg.LastIndexByteString]. *)
Fixpoint IndexByte (s : bytes) (c : ascii) : option nat :=
  match s with
  | [] => None
  | x :: s' => if Ascii.eqb x c then Some 0 else S <$> IndexByte s' c
  end.

Definition LastIndexByte (s : bytes) (c : ascii) : option nat :=
  (λ i, length s - 1 - i) <$> IndexByte (reverse s) c.

End Strings.
Export Strings.

(** * Errors, connections and the outside world *)

(** Go [error] values, as far as the bridge tells them apart: the sentinels
    it compares with [==], errors that implement [net.Error], and the
    wrappers built by [fmt.Errorf]: with a [%w] verb (format, the [%s]
    arguments, and the wrapped error) or without one. *)
Inductive error :=
| EOF                                          (* io.EOF *)
| ErrClosedPipe                                (* io.ErrClosedPipe *)
| ErrShortWrite                                (* io.ErrShortWrite *)
| NetError (temporary : bool) (msg : bytes)    (* implements net.Error *)
| AddrError (why addr : bytes)                 (* *net.AddrError *)
| ErrOther (msg : bytes)                       (* any other error *)
| ErrorNew (msg : bytes)                        (* fmt.Errorf without %w *)
| Errorf (format : bytes) (args : list bytes) (wrapped : error).

(** [err == io.EOF] and [err == io.ErrClosedPipe]. *)
Definition isEOF (e : error) : bool :=
  match e with EOF => true | _ => false end.
Definition isErrClosedPipe (e : error) : bool :=
  match e with ErrClosedPipe => true | _ => false end.

(** [ne, ok := err.(net.Error)] followed by [ne.Temporary()]: [None] when
    the assertion fails.  [*net.AddrError] implements [net.Error] and is
    never temporary. *)
Definition asNetError (e : error) : option bool :=
  match e with
  | NetError t _ => Some t
  | AddrError _ _ => Some false
  | _ => None
  end.

(** A [net.Conn]: the identity of the socket and what
    [conn.RemoteAddr().String()] answers. *)
Record Conn := mkConn { fd : nat; RemoteAddr : bytes }.

(** A [net.Listener]: what [l.Addr()] prints. *)
Record Listener := mkListener { Addr : bytes }.

(** An argument of [log.Printf]. *)
Inductive Arg :=
| AStr (s : bytes)
| AErr (e : error)
| AConn (c : Conn).

(** What the bridge does to the outside, in the order it does it. *)
Inductive Action :=
| OutWrite (p : bytes) (n : nat) (e : option error)
    (* [Write(p)] on the output stream answered [(n, e)] *)
| ConnWrite (c : Conn) (p : bytes) (e : option error)
    (* [c.Write(p)] answered the error [e] *)
| ConnClose (c : Conn)                          (* [c.Close()] *)
| Log (format : bytes) (args : list Arg)        (* [log.Printf(format, args...)] *)
| Go (port : bytes) (c : Conn).
    (* [g.Go(func() error { return b.handleOutgoing(ctx, port, c) })] *)

(** How one [Write] on the output stream ends: everything is taken, or [n]
    bytes are taken and [e] is returned. *)
Inductive WriteOutcome :=
| WAll
| WPart (n : nat) (e : option error).

(** The [bridge] struct and its surroundings.  [connMap] and [listener] are
    the fields of the struct; [in] is the script of reads handed to
    [handleIncoming]; [out] is seen through [trace].  [outEnv] and [connEnv]
    say how the coming writes on the output stream and on the peer sockets
    will end (an exhausted list: they succeed); this is where the context
    wrapper [ctxio.Writer] and the operating system decide. *)
Record World := mkWorld {
  connMap : gmap bytes Conn;
  listener : option Listener;
  outEnv : list WriteOutcome;
  connEnv : list (option error);
  trace : list Action;
}.

(** [New(in, out)], with the environment it will meet. *)
Definition New (oenv : list WriteOutcome) (cenv : list (option error)) : World :=
  mkWorld ∅ None oenv cenv [].

(** The bytes the output stream has taken. *)
Fixpoint written (tr : list Action) : bytes :=
  match tr with
  | [] => []
  | OutWrite p n _ :: tr => take n p ++ written tr
  | _ :: tr => written tr
  end.

(** The lines of the log, in order. *)
Fixpoint logged (tr : list Action) : list (bytes * list Arg) :=
  match tr with
  | [] => []
  | Log f a :: tr => (f, a) :: logged tr
  | _ :: tr => logged tr
  end.

(** The handlers started, in order. *)
Fixpoint started (tr : list Action) : list (bytes * Conn) :=
  match tr with
  | [] => []
  | Go port c :: tr => (port, c) :: started tr
  | _ :: tr => started tr
  end.

(** A log line of level [warn]. *)
Definition isWarning (l : bytes * list Arg) : Prop := ("warn:" : bytes) `prefix_of` l.1.

(** ** The state monad of the bridge *)
Definition M (A : Type) : Type := World → A * World.

Global Instance M_ret : MRet M := λ A a w, (a, w).
Global Instance M_bind : MBind M := λ A B f m w, let '(a, w') := m w in f a w'.

Definition getConn (port : bytes) : M (option Conn) :=
  λ w, (connMap w !! port, w).
Definition putConn (port : bytes) (c : Conn) : M unit :=
  λ w, (tt, mkWorld (<[port := c]> (connMap w)) (listener w) (outEnv w) (connEnv w) (trace w)).
Definition deleteConn (port : bytes) : M unit :=
  λ w, (tt, mkWorld (delete port (connMap w)) (listener w) (outEnv w) (connEnv w) (trace w)).
Definition getListener : M (option Listener) :=
  λ w, (listener w, w).
Definition setListener (l : Listener) : M unit :=
  λ w, (tt, mkWorld (connMap w) (Some l) (outEnv w) (connEnv w) (trace w)).
Definition act (a : Action) : M unit :=
  λ w, (tt, mkWorld (connMap w) (listener w) (outEnv w) (connEnv w) (trace w ++ [a])).
Definition getTrace : M (list Action) :=
  λ w, (trace w, w).

Definition logPrintf (format : bytes) (args : list Arg) : M unit :=
  act (Log format args).

(** [Write(p)] on the output stream [ctxio.Writer(ctx, b.out)]. *)
Definition outWrite (p : bytes) : M (nat * option error) :=
  λ w,
    let '(o, env) := match outEnv w with [] => (WAll, []) | o :: env => (o, env) end in
    let '(n, e) := match o with
                   | WAll => (length p, None)
                   | WPart n e => (n `min` length p, e)
                   end in
    ((n, e), mkWorld (connMap w) (listener w) env (connEnv w) (trace w ++ [OutWrite p n e])).

(** [conn.Write(p)]; the bridge looks at the error only. *)
Definition connWrite (c : Conn) (p : bytes) : M (option error) :=
  λ w,
    let '(e, env) := match connEnv w with [] => (None, []) | e :: env => (e, env) end in
    (e, mkWorld (connMap w) (listener w) (outEnv w) env (trace w ++ [ConnWrite c p e])).

(** The output stream takes whatever it is given: none of the coming
    writes is cut short or fails. *)
Definition reliable (w : World) : Prop := Forall (eq WAll) (outEnv w).

(** Actions that are writes on the output stream. *)
Definition isOutWrite (a : Action) : Prop :=
  match a with OutWrite _ _ _ => True | _ => False end.

(** Actions that are writes on the output stream or log lines. *)
Definition isOutWriteOrLog (a : Action) : Prop :=
  match a with OutWrite _ _ _ | Log _ _ => True | _ => False end.

(** [w'] differs from [w] in the output stream only. *)
Definition sameButOut (w w' : World) : Prop :=
  connMap w' = connMap w ∧ listener w' = listener w ∧ connEnv w' = connEnv w.

(** * Go's [bufio.Writer] *)
Module Bufio.

Definition defaultBufSize : nat := 4096.

(** [buf[0:n]] and the sticky error [err]. *)
Record Writer := mkWriter { buf : bytes; err : option error }.

(** [bufio.NewWriter(w)]. *)
Definition NewWriter : Writer := mkWriter [] None.

Definition Available (b : Writer) : nat := defaultBufSize - length (buf b).

(** [Writer.Flush]. *)
Definition Flush (b : Writer) : M (option error * Writer) :=
  match err b with
  | Some e => mret (Some e, b)
  | None =>
      if length (buf b) =? 0 then mret (None, b) else
      '(n, e) ← outWrite (buf b);
      let e := match e with
               | None => if n <? length (buf b) then Some ErrShortWrite else None
               | Some e => Some e
               end in
      match e with
      | Some e => mret (Some e, mkWriter (drop n (buf b)) (Some e))
      | None => mret (None, mkWriter [] None)
      end
  end.

(** The loop of [Writer.WriteString]: while [s] does not fit and no
    error is pending, fill the buffer and flush it. *)
Fixpoint writeStringLoop (fuel : nat) (b : Writer) (s : bytes) (nn : nat)
    : M (Writer * bytes * nat) :=
  match fuel with
  | 0 => mret (b, s, nn)
  | S fuel =>
      if (Available b <? length s) && negb (bool_decide (is_Some (err b))) then
        let n := Available b `min` length s in
        '(_, b) ← Flush (mkWriter (buf b ++ take n s) (err b));
        writeStringLoop fuel b (drop n s) (nn + n)
      else mret (b, s, nn)
  end.

(** [Writer.WriteString], on an underlying writer that is no
    [io.StringWriter].  The loop runs at most [1 + length s] times. *)
Definition WriteString (b : Writer) (s : bytes) : M (nat * option error * Writer) :=
  '(b, s, nn) ← writeStringLoop (2 + length s) b s 0;
  match err b with
  | Some e => mret (nn, Some e, b)
  | None =>
      let n := Available b `min` length s in
      mret (nn + n, None, mkWriter (buf b ++ take n s) None)
  end.

End Bufio.
Export Bufio.

(** * Go's [net.SplitHostPort] *)
Module Net.

Definition missingPort : bytes := "missing port in address".
Definition tooManyColons : bytes := "too many colons in address".

Definition addrErr (addr why : bytes) : bytes * bytes + error :=
  inr (AddrError why addr).

(** The port starts after the last colon; a host in brackets ends at the
    first [']'], which must sit just before that colon. *)
Definition SplitHostPort (hostport : bytes) : bytes * bytes + error :=
  match LastIndexByte hostport ":" with
  | None => addrErr hostport missingPort
  | Some i =>
      let host_j_k : bytes * nat * nat + bytes :=
        if head hostport is Some "["%char then
          match IndexByte hostport "]" with
          | None => inr ("missing ']' in address" : bytes)
          | Some end_ =>
              if end_ + 1 =? length hostport then inr missingPort
              else if end_ + 1 =? i then
                inl (take (end_ - 1) (drop 1 hostport), 1, end_ + 1)
              else if hostport !! (end_ + 1) is Some ":"%char
                   then inr tooManyColons else inr missingPort
          end
        else
          let host := take i hostport in
          if IndexByte host ":" is Some _ then inr tooManyColons
          else inl (host, 0, 0) in
      match host_j_k with
      | inr why => addrErr hostport why
      | inl (host, j, k) =>
          if IndexByte (drop j hostport) "[" is Some _
          then addrErr hostport "unexpected '[' in address"
          else if IndexByte (drop k hostport) "]" is Some _
          then addrErr hostport "unexpected ']' in address"
          else inl (host, drop (i + 1) hostport)
      end
  end.

End Net.
Export Net.

(** * [golang.org/x/sync/errgroup] *)
Module Errgroup.

(** What [g.Go] does with the value [ret] its function returns, [gerr]
    being the field [g.err]: [g.errOnce.Do(func() { g.err = err; ... })]
    when [ret] is not [nil], so the first error returned is the one kept. *)
Definition errOnce (gerr ret : option error) : option error :=
  match gerr with
  | Some e => Some e
  | None => ret
  end.

End Errgroup.
Export Errgroup.

(** * The bridge *)
Module Bridge.

Definition delim : bytes := ":".
Definition prefixAddress : bytes := "a".
Definition prefixConnect : bytes := "c".
Definition prefixDisconnect : bytes := "d".
Definition prefixReceive : bytes := "r".

(** [fmt.Sprintf("%s:%s\n", a, b)] and [fmt.Sprintf("%s:%s:%s\n", a, b, c)]. *)
Definition Sprintf2 (a b : bytes) : bytes := a ++ ":" ++ b ++ [LF].
Definition Sprintf3 (a b c : bytes) : bytes := a ++ ":" ++ b ++ ":" ++ c ++ [LF].

(** The events of the output stream; each is written by one of the four
    [Sprintf] calls of the bridge. *)
Inductive Event :=
| Address (addr : bytes)
| Connect (id : bytes)
| Disconnect (id : bytes)
| Receive (id payload : bytes).

Definition encode (ev : Event) : bytes :=
  match ev with
  | Address addr => Sprintf2 prefixAddress addr
  | Connect id => Sprintf2 prefixConnect id
  | Disconnect id => Sprintf2 prefixDisconnect id
  | Receive id payload => Sprintf3 prefixReceive id payload
  end.

(** Decoding a line of the input stream, lines 80-82: trimmed (this is
    how the newline that ends the line goes), then cut at the first
    delimiter; there are two fields when [len(m) == 2]. *)
Definition decode (data : bytes) : list bytes :=
  SplitN (TrimSpace data) delim 2.

(** How one pass through the body of a [for] loop ends: at the next
    iteration ([continue], or the end of the body), or at a [return]. *)
Inductive Loop :=
| Continue
| Return (err : option error).

(** What a loop has done when its script of reads is used up: it is
    still blocked in the next read, or it has returned. *)
Inductive Outcome :=
| Blocked
| Returned (err : option error).

(** What [r.ReadString('\n')] (on [ctxio.Reader(ctx, b.in)] or on a peer
    socket) and [listener.Accept()] answer. *)
Abbreviation ReadResult := (bytes * option error)%type.
Abbreviation AcceptResult := (Conn + error)%type.

(** ** [handleIncoming]: lines 72-97, one pass of the loop *)
Definition incomingBody (rd : ReadResult) : M Loop :=
  let '(data, err) := rd in
  match err with
  | Some err =>
      if isEOF err || isErrClosedPipe err then mret (Return None)
      else mret (Return (Some (Errorf "error: failed to read incoming data: %w" [] err)))
  | None =>
      let text := TrimSpace data in
      let m := SplitN text delim 2 in
      if negb (length m =? 2) then
        logPrintf "warn: the incoming data does not follow the syntax (port:expr): %s"
                  [AStr text];;
        mret Continue
      else
        let port := nth 0 m [] in
        let expr := nth 1 m [] in
        conn ← getConn port;
        match conn with
        | None =>
            logPrintf "warn: no connection exists for %s" [AStr port];;
            mret Continue
        | Some conn =>
            err ← connWrite conn expr;
            match err with
            | Some err =>
                logPrintf "warn: failed to write data %s to %s: %s"
                          [AStr expr; AStr port; AErr err];;
                mret Continue
            | None => mret Continue
            end
        end
  end.

Fixpoint handleIncoming (input : list ReadResult) : M Outcome :=
  match input with
  | [] => mret Blocked
  | rd :: input =>
      l ← incomingBody rd;
      match l with
      | Continue => handleIncoming input
      | Return err => mret (Returned err)
      end
  end.

(** ** [handleAccept]: lines 107-133, one pass of the loop *)
Definition acceptBody (ar : AcceptResult) : M Loop :=
  match ar with
  | inr err =>
      if asNetError err is Some true then mret Continue
      else mret (Return (Some
             (Errorf "failed to accept connection by non tempoary error: %w" [] err)))
  | inl conn =>
      match SplitHostPort (RemoteAddr conn) with
      | inr err =>
          mret (Return (Some
            (Errorf "failed to split remote addr: %s: %w" [RemoteAddr conn] err)))
      | inl (_, port) =>
          putConn port conn;;
          let w := NewWriter in
          '(_, err, w) ← WriteString w (Sprintf2 prefixConnect port);
          match err with
          | Some err =>
              mret (Return (Some
                (Errorf "failed to write connected remote port %s: %w" [port] err)))
          | None =>
              '(err, w) ← Flush w;
              match err with
              | Some err => mret (Return (Some (Errorf "failed to flush: %w" [] err)))
              | None => act (Go port conn);; mret Continue
              end
          end
      end
  end.

Fixpoint acceptLoop (accepts : list AcceptResult) : M Outcome :=
  match accepts with
  | [] => mret Blocked
  | ar :: accepts =>
      l ← acceptBody ar;
      match l with
      | Continue => acceptLoop accepts
      | Return err => mret (Returned err)
      end
  end.

Definition handleAccept (accepts : list AcceptResult) : M Outcome :=
  l ← getListener;
  match l with
  | None =>
      mret (Returned (Some (ErrorNew
        "'listener' is nil and handleAccept must be called after proper initialization")))
  | Some _ => acceptLoop accepts
  end.

(** ** [handleOutgoing]: lines 151-166, one pass of the loop *)
Definition outgoingBody (port : bytes) (conn : Conn) (w : Writer) (rd : ReadResult)
    : M (Loop * Writer) :=
  let '(data, err) := rd in
  match err with
  | Some err =>
      if isEOF err || isErrClosedPipe err then mret (Return None, w)
      else mret (Return (Some (Errorf "error: failed to read outgoing data: %w" [] err)), w)
  | None =>
      let text := TrimSpace data in
      '(_, err, w) ← WriteString w (Sprintf3 prefixReceive port text);
      match err with
      | Some err =>
          logPrintf "warn: failed to write data %s from %s: %s"
                    [AStr data; AConn conn; AErr err];;
          mret (Continue, w)
      | None =>
          '(err, w) ← Flush w;
          match err with
          | Some err => mret (Return (Some (Errorf "error: failed to flush: %w" [] err)), w)
          | None => mret (Continue, w)
          end
      end
  end.

Fixpoint outgoingLoop (port : bytes) (conn : Conn) (w : Writer) (input : list ReadResult)
    : M (Outcome * Writer) :=
  match input with
  | [] => mret (Blocked, w)
  | rd :: input =>
      '(l, w) ← outgoingBody port conn w rd;
      match l with
      | Continue => outgoingLoop port conn w input
      | Return err => mret (Returned err, w)
      end
  end.

(** The deferred function, lines 140-149. *)
Definition outgoingDeferred (port : bytes) (conn : Conn) (w : Writer) : M unit :=
  '(_, err, w) ← WriteString w (Sprintf2 prefixDisconnect port);
  (if err is Some err
   then logPrintf "warn: failed to write disconnection from %s: %s" [AConn conn; AErr err]
   else mret tt);;
  '(err, w) ← Flush w;
  (if err is Some err
   then logPrintf "error: failed to flush: %s" [AErr err]
   else mret tt);;
  deleteConn port;;
  act (ConnClose conn).

(** The deferred function runs when the loop returns. *)
Definition handleOutgoing (port : bytes) (conn : Conn) (input : list ReadResult)
    : M Outcome :=
  '(o, w) ← outgoingLoop port conn NewWriter input;
  match o with
  | Blocked => mret Blocked
  | Returned err => outgoingDeferred port conn w;; mret (Returned err)
  end.

(** ** The goroutines of the group
    [Start] hands [handleIncoming] and [handleAccept] to [g.Go] (lines
    60-65), [handleAccept] hands one [handleOutgoing] for each connection
    to [g.Go] (lines 130-132), and [Start] then waits in [g.Wait()].  A
    goroutine is where its loop has got to: the reads (or the accepts) it
    has still to see and, for an Egress handler, its buffered writer. *)
Record Handler := mkHandler {
  hport : bytes;
  hconn : Conn;
  hwriter : Writer;
  hreads : list ReadResult;
}.

(** The group [g] of [errgroup.WithContext]: its goroutines ([None] once
    the function has returned; the handlers in the order of their [g.Go])
    and the field [g.err]. *)
Record Group := mkGroup {
  ingress : option (list ReadResult);
  acceptor : option (list AcceptResult);
  handlers : list (option Handler);
  gerr : option error;
}.

(** The goroutine that makes the next pass through its loop. *)
Inductive Pick :=
| PIngress
| PAcceptor
| PHandler (i : nat).

Global Instance Pick_eq_dec : EqDecision Pick.
Proof. solve_decision. Defined.


(** The group after the two [g.Go] of [Start]: nothing has run yet. *)
Definition group0 (input : list ReadResult) (accepts : list AcceptResult) : Group :=
  mkGroup (Some input) (Some accepts) [] None.

(** One pass of the goroutine picked: its function takes the next read of
    its script.  A goroutine that has returned, or whose script is used up
    (it is blocked in its read), does nothing.  What the function returns
    goes to [g.err] through [errOnce]; the cancelling of [ctx] that comes
    with the first error shows in what the reads and writes made through
    [ctxio] answer from then on, which the scripts and [outEnv] say.
    [listener.Accept()] and the reads of a peer socket do not look at
    [ctx].  [peers c] is what the peer of the connection [c] will send.
    The goroutines interleave between passes of their loops. *)
Definition groupStep (peers : Conn → list ReadResult) (p : Pick) (g : Group) : M Group :=
  match p with
  | PIngress =>
      match ingress g with
      | Some (rd :: input) =>
          o ← handleIncoming [rd];
          mret (match o with
                | Blocked => mkGroup (Some input) (acceptor g) (handlers g) (gerr g)
                | Returned err =>
                    mkGroup None (acceptor g) (handlers g) (errOnce (gerr g) err)
                end)
      | _ => mret g
      end
  | PAcceptor =>
      match acceptor g with
      | Some (ar :: accepts) =>
          before ← getTrace;
          o ← handleAccept [ar];
          after ← getTrace;
          let hs := handlers g ++
                    ((λ pc, Some (mkHandler pc.1 pc.2 NewWriter (peers pc.2)))
                       <$> started (drop (length before) after)) in
          mret (match o with
                | Blocked => mkGroup (ingress g) (Some accepts) hs (gerr g)
                | Returned err => mkGroup (ingress g) None hs (errOnce (gerr g) err)
                end)
      | _ => mret g
      end
  | PHandler i =>
      match handlers g !! i with
      | Some (Some h) =>
          match hreads h with
          | rd :: reads =>
              '(o, w) ← outgoingLoop (hport h) (hconn h) (hwriter h) [rd];
              match o with
              | Blocked =>
                  mret (mkGroup (ingress g) (acceptor g)
                          (<[i := Some (mkHandler (hport h) (hconn h) w reads)]> (handlers g))
                          (gerr g))
              | Returned err =>
                  outgoingDeferred (hport h) (hconn h) w;;
                  mret (mkGroup (ingress g) (acceptor g) (<[i := None]> (handlers g))
                          (errOnce (gerr g) err))
              end
          | [] => mret g
          end
      | _ => mret g
      end
  end.

(** The goroutines run in the order of [schedule]. *)
Fixpoint groupRun (peers : Conn → list ReadResult) (schedule : list Pick) (g : Group)
    : M Group :=
  match schedule with
  | [] => mret g
  | p :: schedule => g ← groupStep peers p g; groupRun peers schedule g
  end.

(** [g.Wait()]: blocked until every goroutine of the group has returned,
    then [g.err]. *)
Definition Wait (g : Group) : Outcome :=
  match ingress g, acceptor g with
  | None, None =>
      if forallb (λ h : option Handler, if h is None then true else false) (handlers g)
      then Returned (gerr g) else Blocked
  | _, _ => Blocked
  end.

(** ** [Start]
    [listen] is what [net.Listen("tcp", addr)] answers, [input] what the
    reads of the input stream will answer and [accepts] what
    [listener.Accept()] will.  After the address event the two goroutines
    are in the group, nothing returned yet; [Start] is then in [g.Wait()],
    where it still is ([Blocked]) when [schedule] is used up and a
    goroutine has not returned. *)
Definition Start (addr : bytes) (listen : Listener + error) (input : list ReadResult)
    (accepts : list AcceptResult) (peers : Conn → list ReadResult)
    (schedule : list Pick) : M Outcome :=
  match listen with
  | inr err => mret (Returned (Some (Errorf "failed to listen TCP on %s: %w" [addr] err)))
  | inl l =>
      setListener l;;
      let w := NewWriter in
      '(_, err, w) ← WriteString w (Sprintf2 prefixAddress (Addr l));
      match err with
      | Some err =>
          mret (Returned (Some (Errorf "failed to write listen address %s: %w" [Addr l] err)))
      | None =>
          '(err, w) ← Flush w;
          match err with
          | Some err => mret (Returned (Some (Errorf "failed to flush: %w" [] err)))
          | None =>
              g ← groupRun peers schedule (group0 input accepts);
              mret (Wait g)
          end
      end
  end.

End Bridge.
Export Bridge.

(** The writer between two events: nothing is buffered unless an error is
    pending. *)
Definition idle (b : Writer) : Prop := err b = None → buf b = [].

(** * Properties as the specification words them *)

(** "For every command [id:expr] whose [id] is registered, the exact bytes
    of [expr] are written to that connection": handling the line makes a
    [Write] of [expr] itself on the socket of [id]. *)
Definition forwards_verbatim (id expr : bytes) (conn : Conn) (w : World) : Prop :=
  connMap w !! id = Some conn →
  ∃ e tl, trace (incomingBody (id ++ ":" ++ expr ++ [LF], None) w).2
          = trace w ++ ConnWrite conn expr e :: tl.


(** "Any failure to write a receive event is fatal for the handler": when
    [WriteString] fails for the event of the first line read, the handler
    returns an error. *)
Definition receive_write_failure_fatal (port : bytes) (conn : Conn) (data : bytes)
    (rest : list ReadResult) (w : World) : Prop :=
  ∀ nn e b1 w1,
    WriteString NewWriter (encode (Receive port (TrimSpace data))) w = ((nn, Some e, b1), w1) →
    ∃ err, (handleOutgoing port conn ((data, None) :: rest) w).1 = Returned (Some err).

(** "Exactly one disconnect event follows the last receive event": when
    the handler has returned, what it has put on the output stream ends
    with the disconnect event of its identifier. *)
Definition disconnect_follows_receives (port : bytes) (conn : Conn)
    (input : list ReadResult) (w : World) : Prop :=
  ∀ r w',
    handleOutgoing port conn input w = (Returned r, w') →
    encode (Disconnect port) `suffix_of` written (drop (length (trace w)) (trace w')).

(** "Carriage returns never appear in a receive event's payload": the
    bytes written for a line read from the peer hold no carriage return. *)
Definition receive_without_CR (port : bytes) (conn : Conn) (data : bytes) (w : World) : Prop :=
  ∀ l b w',
    outgoingBody port conn NewWriter (data, None) w = ((l, b), w') →
    CR ∉ written (drop (length (trace w)) (trace w')).

(** "For every tag and fields [a], [b]: decoding the encoded line yields
    [(tag, a:b)], and splitting the remainder again at its first delimiter
    gives back the fields." *)
Definition roundtrips (tag a b : bytes) : Prop :=
  decode (Sprintf3 tag a b) = [tag; a ++ ":" ++ b]
  ∧ SplitN (a ++ ":" ++ b) delim 2 = [a; b].

(** * [main.go] *)
Module Main.

(** [run], lines 38-45: [bridge.New(os.Stdin, os.Stdout)], then [Start];
    the exit code and the error handed to [main], once [Start] has
    returned ([None] while it has not).  [oenv] and [cenv] are what the
    bridge will meet on its output stream and peer sockets. *)
Definition run (addr : bytes) (listen : Listener + error) (input : list ReadResult)
    (accepts : list AcceptResult) (peers : Conn → list ReadResult)
    (schedule : list Pick) (oenv : list WriteOutcome) (cenv : list (option error))
    : option (nat * option error) :=
  match (Start addr listen input accepts peers schedule (New oenv cenv)).1 with
  | Blocked => None
  | Returned (Some err) => Some (1, Some err)
  | Returned None => Some (0, None)
  end.

End Main.
Export Main.

(** Actions that are writes on a peer socket or log lines. *)
Definition isConnWriteOrLog (a : Action) : Prop :=
  match a with ConnWrite _ _ _ | Log _ _ => True | _ => False end.

(** Actions that are writes on the output stream or starts of a handler. *)
Definition isOutWriteOrGo (a : Action) : Prop :=
  match a with OutWrite _ _ _ | Go _ _ => True | _ => False end.

(** Actions that are log lines. *)
Definition isLog (a : Action) : Prop :=
  match a with Log _ _ => True | _ => False end.

(** The writes made on peer sockets, in order. *)
Fixpoint sent (tr : list Action) : list (Conn * bytes) :=
  match tr with
  | [] => []
  | ConnWrite c p _ :: tr => (c, p) :: sent tr
  | _ :: tr => sent tr
  end.

(** Unfold the operations of the monad [M]. *)
Ltac run_M :=
  unfold mbind, M_bind, mret, M_ret, logPrintf, act, getConn, putConn, deleteConn,
    getListener, setListener, getTrace, connWrite in *;
  cbn beta iota zeta in *.

(** * The models of the library at work *)

Example TrimSpace_crlf : TrimSpace ("  5000:hi  " ++ [CR; LF]) = "5000:hi".
Proof. reflexivity. Qed.

Example TrimSpace_inner : TrimSpace (" a " ++ [CR] ++ " b" ++ [LF]) = "a " ++ [CR] ++ " b".
Proof. reflexivity. Qed.

(** U+00A0 before, U+2003 and U+3000 after. *)
Example TrimSpace_unicode :
  TrimSpace (["194"; "160"; "a"; "226"; "128"; "131"; "227"; "128"; "128"]%char) = "a".
Proof. reflexivity. Qed.

(** A truncated or foreign multi-byte sequence is no white space. *)
Example TrimSpace_invalid :
  TrimSpace (["194"; "a"; "226"; "128"]%char) = ["194"; "a"; "226"; "128"]%char.
Proof. reflexivity. Qed.

Example SplitN_first_only : SplitN "5000:GET /a:b" delim 2 = ["5000" : bytes; "GET /a:b" : bytes].
Proof. reflexivity. Qed.

Example SplitN_no_delim : SplitN "hello" delim 2 = ["hello" : bytes].
Proof. reflexivity. Qed.

Example SplitN_empty_fields : SplitN ":" delim 2 = [[]; []].
Proof. reflexivity. Qed.

Example SplitHostPort_ipv4 :
  SplitHostPort "127.0.0.1:5000" = inl ("127.0.0.1" : bytes, "5000" : bytes).
Proof. reflexivity. Qed.

Example SplitHostPort_ipv6 :
  SplitHostPort "[::1]:5000" = inl ("::1" : bytes, "5000" : bytes).
Proof. reflexivity. Qed.

Example SplitHostPort_no_port :
  SplitHostPort "localhost" = inr (AddrError missingPort "localhost").
Proof. reflexivity. Qed.

(** An event of 5000 bytes passes the 4096-byte buffer in two writes. *)
Example WriteString_long :
  let '(_, w) := ('(_, _, b) ← WriteString NewWriter (replicate 5000 "x"%char); Flush b)
                   (New [] []) in
  (λ a, match a with OutWrite p n _ => (length p, n) | _ => (0, 0) end) <$> trace w
  = [(4096, 4096); (904, 904)].
Proof. vm_compute. reflexivity. Qed.

(** A write cut short without an error is [io.ErrShortWrite]; what was
    not taken stays in the buffer and the error sticks. *)
Example Flush_short :
  Flush (mkWriter "d:5000" None) (New [WPart 2 None] [])
  = ((Some ErrShortWrite, mkWriter "5000" (Some ErrShortWrite)),
     mkWorld ∅ None [] [] [OutWrite "d:5000" 2 None]).
Proof. reflexivity. Qed.

Example WriteString_after_error :
  WriteString (mkWriter "5000" (Some ErrShortWrite)) "r:5000:x" (New [] [])
  = ((0, Some ErrShortWrite, mkWriter "5000" (Some ErrShortWrite)), New [] []).
Proof. vm_compute. reflexivity. Qed.

(** A peer connects, sends [hello], is sent [world], and leaves. *)
Example session :
  let c := mkConn 7 "127.0.0.1:5000" in
  let w0 := mkWorld ∅ (Some (mkListener "127.0.0.1:40000")) [] [] [] in
  let '(_, w1) := handleAccept [inl c] w0 in
  let '(_, w2) := handleIncoming [("5000:world" ++ [LF], None)] w1 in
  let '(_, w3) := handleOutgoing "5000" c [("hello" ++ [LF], None); ([], Some EOF)] w2 in
  trace w3
  = [OutWrite ("c:5000" ++ [LF]) 7 None; Go "5000" c; ConnWrite c "world" None;
     OutWrite ("r:5000:hello" ++ [LF]) 13 None; OutWrite ("d:5000" ++ [LF]) 7 None;
     ConnClose c]
  ∧ connMap w2 !! ("5000" : bytes) = Some c
  ∧ connMap w3 !! ("5000" : bytes) = None.
Proof. vm_compute. done. Qed.

(** * Go's [strings] package: trimming and splitting *)
Section TrimFront.
Context (p1 : ascii → bool) (p2 : ascii → ascii → bool) (p3 : ascii → ascii → ascii → bool).

Lemma trimFront_suffix s : trimFront p1 p2 p3 s `suffix_of` s.
Proof.
  remember (length s) as n eqn:Hn. revert s Hn.
  induction n as [n IH] using lt_wf_ind. intros s ->.
  destruct s as [|c1 [|c2 [|c3 s]]]; cbn [trimFront].
  - done.
  - destruct (p1 c1); [by apply suffix_cons_r|done].
  - destruct (p1 c1).
    { apply suffix_cons_r. eapply (IH 1); [simpl; lia|done]. }
    destruct (p2 c1 c2); [|done]. by do 2 apply suffix_cons_r.
  - destruct (p1 c1).
    { apply suffix_cons_r. eapply IH; [|done]. simpl; lia. }
    destruct (p2 c1 c2).
    { do 2 apply suffix_cons_r. eapply IH; [|done]. simpl; lia. }
    destruct (p3 c1 c2 c3); [|done].
    do 3 apply suffix_cons_r. eapply IH; [|done]. simpl; lia.
Qed.

(** A byte [d] that is part of no recognised rune stops the scan. *)
Context (d : ascii).
Hypothesis d1 : p1 d = false.
Hypothesis d2 : ∀ c, p2 d c = false ∧ p2 c d = false.
Hypothesis d3 : ∀ c c', p3 d c c' = false ∧ p3 c d c' = false ∧ p3 c c' d = false.

Lemma trimFront_stop l r :
  trimFront p1 p2 p3 (l ++ d :: r) = trimFront p1 p2 p3 l ++ d :: r.
Proof.
  remember (length l) as n eqn:Hn. revert l Hn.
  induction n as [n IH] using lt_wf_ind. intros l ->.
  assert (H0 : trimFront p1 p2 p3 (d :: r) = d :: r).
  { cbn [trimFront]. rewrite d1. destruct r as [|c2 [|c3 r]]; [done| |].
    - by rewrite (proj1 (d2 c2)).
    - rewrite (proj1 (d2 c2)). by rewrite (proj1 (d3 c2 c3)). }
  destruct l as [|c1 [|c2 [|c3 l]]]; cbn [trimFront app].
  - exact H0.
  - destruct (p1 c1); [exact H0|].
    rewrite (proj2 (d2 c1)). destruct r as [|c3 r]; [done|].
    by rewrite (proj1 (proj2 (d3 c1 c3))).
  - destruct (p1 c1).
    { refine (IH 1 _ [c2] eq_refl). simpl; lia. }
    destruct (p2 c1 c2); [exact H0|].
    by rewrite (proj2 (proj2 (d3 c1 c2))).
  - destruct (p1 c1).
    { refine (IH _ _ (c2 :: c3 :: l) eq_refl). simpl; lia. }
    destruct (p2 c1 c2).
    { refine (IH _ _ (c3 :: l) eq_refl). simpl; lia. }
    destruct (p3 c1 c2 c3); [|done].
    refine (IH _ _ l eq_refl). simpl; lia.
Qed.
End TrimFront.

Section RuneAt.
Context (p1 : ascii → bool) (p2 : ascii → ascii → bool) (p3 : ascii → ascii → ascii → bool).

Lemma trimFront_runeAt s : runeAt p1 p2 p3 (trimFront p1 p2 p3 s) = false.
Proof.
  remember (length s) as n eqn:Hn. revert s Hn.
  induction n as [n IH] using lt_wf_ind. intros s ->.
  destruct s as [|c1 [|c2 [|c3 s]]]; cbn [trimFront].
  - done.
  - destruct (p1 c1) eqn:E1; [done|]. cbn. by rewrite E1.
  - destruct (p1 c1) eqn:E1.
    { refine (IH 1 _ [c2] eq_refl). simpl; lia. }
    destruct (p2 c1 c2) eqn:E2; [done|]. cbn. by rewrite E1, E2.
  - destruct (p1 c1) eqn:E1.
    { refine (IH _ _ (c2 :: c3 :: s) eq_refl). simpl; lia. }
    destruct (p2 c1 c2) eqn:E2.
    { refine (IH _ _ (c3 :: s) eq_refl). simpl; lia. }
    destruct (p3 c1 c2 c3) eqn:E3.
    { refine (IH _ _ s eq_refl). simpl; lia. }
    cbn. by rewrite E1, E2, E3.
Qed.

Lemma trimFront_id s : runeAt p1 p2 p3 s = false → trimFront p1 p2 p3 s = s.
Proof.
  destruct s as [|c1 [|c2 [|c3 s]]]; cbn; [done|..].
  - rewrite orb_false_r. by intros ->.
  - rewrite orb_false_r. intros [-> ->]%orb_false_elim. done.
  - intros [-> [-> ->]%orb_false_elim]%orb_false_elim. done.
Qed.

Lemma runeAt_prefix s t :
  s `prefix_of` t → runeAt p1 p2 p3 s = true → runeAt p1 p2 p3 t = true.
Proof.
  intros [k ->].
  destruct s as [|c1 [|c2 [|c3 s]]]; cbn; [done|..].
  - rewrite orb_false_r. by intros ->.
  - rewrite orb_false_r. intros [->| ->]%orb_true_elim; [done|].
    by rewrite orb_true_r.
  - done.
Qed.
End RuneAt.

Lemma colon_asciiSpace : asciiSpace ":" = false.
Proof. reflexivity. Qed.

Lemma colon_space2 c : space2 ":" c = false ∧ space2 c ":" = false.
Proof. unfold space2. split; [done|]. by destruct (Ascii.eqb c _). Qed.

Lemma colon_space3 c c' :
  space3 ":" c c' = false ∧ space3 c ":" c' = false ∧ space3 c c' ":" = false.
Proof.
  unfold space3. split_and!; [done| |].
  - cbn. by rewrite !andb_false_r.
  - cbn. by rewrite !andb_false_r.
Qed.

Lemma TrimLeftSpace_colon l r :
  TrimLeftSpace (l ++ ":"%char :: r) = TrimLeftSpace l ++ ":"%char :: r.
Proof.
  apply trimFront_stop; [exact colon_asciiSpace|apply colon_space2|apply colon_space3].
Qed.

Lemma TrimRightSpace_colon l r :
  TrimRightSpace (l ++ ":"%char :: r) = l ++ ":"%char :: TrimRightSpace r.
Proof.
  unfold TrimRightSpace.
  rewrite reverse_app, reverse_cons, <- (assoc_L (++)). cbn [app].
  rewrite trimFront_stop.
  - rewrite reverse_app, reverse_cons, reverse_involutive, <- (assoc_L (++)). done.
  - exact colon_asciiSpace.
  - intros c. destruct (colon_space2 c). done.
  - intros c c'. destruct (colon_space3 c' c) as (?&?&?).
    destruct (colon_space3 c c') as (?&?&?). done.
Qed.

Lemma TrimRightSpace_LF s : TrimRightSpace (s ++ [LF]) = TrimRightSpace s.
Proof. unfold TrimRightSpace. by rewrite reverse_app. Qed.

Lemma TrimSpace_line a b :
  TrimSpace (a ++ ":"%char :: b ++ [LF]) = TrimLeftSpace a ++ ":"%char :: TrimRightSpace b.
Proof.
  unfold TrimSpace. by rewrite TrimLeftSpace_colon, TrimRightSpace_colon, TrimRightSpace_LF.
Qed.

Lemma TrimLeftSpace_suffix s : TrimLeftSpace s `suffix_of` s.
Proof. apply trimFront_suffix. Qed.

Lemma TrimRightSpace_prefix s : TrimRightSpace s `prefix_of` s.
Proof.
  unfold TrimRightSpace.
  pose proof (trimFront_suffix asciiSpace (λ c2 c1, space2 c1 c2)
                (λ c3 c2 c1, space3 c1 c2 c3) (reverse s)) as H.
  apply suffix_prefix_reverse in H. by rewrite reverse_involutive in H.
Qed.

Lemma TrimSpace_startsSpace s : startsSpace (TrimSpace s) = false.
Proof.
  destruct (startsSpace (TrimSpace s)) eqn:E; [|done].
  apply (runeAt_prefix _ _ _ _ (TrimLeftSpace s)) in E; [|apply TrimRightSpace_prefix].
  unfold TrimLeftSpace in E. by rewrite trimFront_runeAt in E.
Qed.

Lemma TrimSpace_endsSpace s : endsSpace (TrimSpace s) = false.
Proof.
  unfold endsSpace, TrimSpace, TrimRightSpace.
  rewrite reverse_involutive. apply trimFront_runeAt.
Qed.

Lemma TrimLeftSpace_id s : startsSpace s = false → TrimLeftSpace s = s.
Proof. apply trimFront_id. Qed.

Lemma TrimRightSpace_id s : endsSpace s = false → TrimRightSpace s = s.
Proof.
  unfold endsSpace, TrimRightSpace. intros H.
  by rewrite trimFront_id, reverse_involutive.
Qed.

Lemma TrimLeftSpace_startsSpace s : startsSpace (TrimLeftSpace s) = false.
Proof. apply trimFront_runeAt. Qed.

Lemma TrimRightSpace_endsSpace s : endsSpace (TrimRightSpace s) = false.
Proof.
  unfold endsSpace, TrimRightSpace. rewrite reverse_involutive. apply trimFront_runeAt.
Qed.

(** Trimming changes nothing exactly when there is nothing to trim. *)
Lemma TrimLeftSpace_fixed s : TrimLeftSpace s = s ↔ startsSpace s = false.
Proof.
  split; [|apply TrimLeftSpace_id].
  intros H. rewrite <- H. apply TrimLeftSpace_startsSpace.
Qed.

Lemma TrimRightSpace_fixed s : TrimRightSpace s = s ↔ endsSpace s = false.
Proof.
  split; [|apply TrimRightSpace_id].
  intros H. rewrite <- H. apply TrimRightSpace_endsSpace.
Qed.

(** ** Splitting at a one-byte separator *)

Lemma Index_byte_None c (s : bytes) : c ∉ s → Index s [c] = None.
Proof.
  induction s as [|x s IH]; intros Hc; cbn [Index].
  - rewrite bool_decide_eq_false_2; [done|]. by intros [k ?].
  - rewrite bool_decide_eq_false_2.
    + rewrite IH; [done|]. intros ?. apply Hc. by right.
    + intros [k Hk]. simplify_eq/=. apply Hc. by left.
Qed.

Lemma Index_byte_app c (a b : bytes) :
  c ∉ a → Index (a ++ c :: b) [c] = Some (length a).
Proof.
  induction a as [|x a IH]; intros Hc; cbn [Index app].
  - rewrite bool_decide_eq_true_2; [done|]. by exists b.
  - rewrite bool_decide_eq_false_2.
    + rewrite IH; [done|]. intros ?. apply Hc. by right.
    + intros [k Hk]. simplify_eq/=. apply Hc. by left.
Qed.

Lemma SplitN_2_app c (a b : bytes) : c ∉ a → SplitN (a ++ c :: b) [c] 2 = [a; b].
Proof.
  intros Hc. cbn [SplitN]. rewrite Index_byte_app by done.
  by rewrite take_app_length, drop_app_add.
Qed.

Lemma SplitN_2_None c (s : bytes) : c ∉ s → SplitN s [c] 2 = [s].
Proof. intros Hc. cbn [SplitN]. by rewrite Index_byte_None. Qed.

Lemma elem_of_split_first c (s : bytes) :
  c ∈ s → ∃ a b, s = a ++ c :: b ∧ c ∉ a.
Proof.
  induction s as [|x s IH]; [by intros ?%elem_of_nil|].
  destruct (decide (x = c)) as [->|Hne].
  - intros _. exists [], s. split; [done|]. apply not_elem_of_nil.
  - intros [?|Hin]%elem_of_cons; [done|].
    destruct (IH Hin) as (a & b & -> & Ha).
    exists (x :: a), b. split; [done|].
    intros [?|?]%elem_of_cons; congruence.
Qed.

Lemma SplitN_2_length c (s : bytes) : length (SplitN s [c] 2) = 2 ↔ c ∈ s.
Proof.
  split.
  - intros H. destruct (decide (c ∈ s)) as [|Hn]; [done|].
    by rewrite SplitN_2_None in H.
  - intros (a & b & -> & Ha)%elem_of_split_first. by rewrite SplitN_2_app.
Qed.

(** * The Ingress loop *)

Lemma incomingBody_line data w :
  ∃ w', incomingBody (data, None) w = (Continue, w') ∧ connMap w' = connMap w.
Proof.
  unfold incomingBody.
  destruct (negb _); [by eexists|].
  unfold mbind, M_bind, getConn. 
  destruct (connMap w !! _); [|by eexists].
  unfold connWrite. destruct (connEnv w) as [|[e|] env]; by eexists.
Qed.

(** C1, as amended: the whole line is trimmed before it is cut, so the
    bytes written to the socket registered under [id] (leading white space
    of the line dropped) are those of [expr] without its trailing white
    space, in one [Write], with no newline added; they are the exact bytes
    of [expr] exactly when [expr] does not end in white space, and the
    socket is the one registered under [id] itself exactly when [id] does
    not start with white space. *)
Theorem incoming_forwards_trimmed id expr conn w :
  ":"%char ∉ id →
  connMap w !! TrimLeftSpace id = Some conn →
  (∃ e w',
    incomingBody (id ++ ":" ++ expr ++ [LF], None) w = (Continue, w')
    ∧ trace w' = trace w ++ ConnWrite conn (TrimRightSpace expr) e ::
        match e with
        | Some err => [Log "warn: failed to write data %s to %s: %s"
                           [AStr (TrimRightSpace expr); AStr (TrimLeftSpace id); AErr err]]
        | None => []
        end)
  ∧ (TrimLeftSpace id = id ↔ startsSpace id = false)
  ∧ (TrimRightSpace expr = expr ↔ endsSpace expr = false).
Proof.
  intros Hid Hconn. split_and!; [|apply TrimLeftSpace_fixed|apply TrimRightSpace_fixed].
  unfold incomingBody. cbn [String.list_ascii_of_string app].
  rewrite TrimSpace_line.
  assert (Hid' : ":"%char ∉ TrimLeftSpace id).
  { intros Hin. apply Hid. destruct (TrimLeftSpace_suffix id) as [k Hk].
    rewrite Hk. apply elem_of_app. by right. }
  change delim with [":"%char]. rewrite SplitN_2_app by done.
  cbn [length Nat.eqb negb nth].
  unfold mbind, M_bind, getConn. rewrite Hconn.
  unfold connWrite. destruct (connEnv w) as [|[e|] env].
  - by exists None; eexists.
  - exists (Some e). eexists. split; [reflexivity|].
    cbn. by rewrite <- (assoc_L (++)).
  - by exists None; eexists.
Qed.

Lemma incoming_forwards_trimmed_witness :
  let c := mkConn 7 "127.0.0.1:5000" in
  let w := mkWorld {[ ("5000" : bytes) := c ]} None [] [] [] in
  (∃ e w',
    incomingBody ("5000" ++ ":" ++ "world" ++ [LF], None) w = (Continue, w')
    ∧ trace w' = trace w ++ ConnWrite c (TrimRightSpace "world") e ::
        match e with
        | Some err => [Log "warn: failed to write data %s to %s: %s"
                           [AStr (TrimRightSpace "world"); AStr (TrimLeftSpace "5000"); AErr err]]
        | None => []
        end)
  ∧ (TrimLeftSpace "5000" = "5000" ↔ startsSpace "5000" = false)
  ∧ (TrimRightSpace "world" = "world" ↔ endsSpace "world" = false).
Proof.
  intros c w. apply (incoming_forwards_trimmed "5000" "world" c w).
  - vm_compute. intros H.
    repeat (apply elem_of_cons in H as [?|H]; [done|]). by apply elem_of_nil in H.
  - vm_compute. reflexivity.
Defined.

(** C1, as stated, fails: the command [5000:hi ] (a trailing blank in
    [expr]) makes the bridge write [hi], not [hi ]. *)
Lemma forwards_verbatim_fails :
  let c := mkConn 7 "127.0.0.1:5000" in
  ¬ forwards_verbatim "5000" "hi " c (mkWorld {[ ("5000" : bytes) := c ]} None [] [] []).
Proof.
  intros c H. destruct H as (e & tl & H); [vm_compute; reflexivity|].
  vm_compute in H. discriminate H.
Qed.

Lemma incomingBody_malformed data w :
  ":"%char ∉ TrimSpace data →
  incomingBody (data, None) w
  = (Continue,
     mkWorld (connMap w) (listener w) (outEnv w) (connEnv w)
       (trace w ++ [Log "warn: the incoming data does not follow the syntax (port:expr): %s"
                        [AStr (TrimSpace data)]])).
Proof.
  intros H. unfold incomingBody. change delim with [":"%char].
  by rewrite SplitN_2_None.
Qed.

Lemma incomingBody_split data id expr w :
  TrimSpace data = id ++ ":" ++ expr → ":"%char ∉ id →
  incomingBody (data, None) w
  = match connMap w !! id with
    | None =>
        (Continue,
         mkWorld (connMap w) (listener w) (outEnv w) (connEnv w)
           (trace w ++ [Log "warn: no connection exists for %s" [AStr id]]))
    | Some conn =>
        (err ← connWrite conn expr;
         match err with
         | Some err =>
             logPrintf "warn: failed to write data %s to %s: %s"
                       [AStr expr; AStr id; AErr err];;
             mret Continue
         | None => mret Continue
         end) w
    end.
Proof.
  intros Ht Hid. unfold incomingBody. rewrite Ht.
  cbn [String.list_ascii_of_string app]. change delim with [":"%char].
  rewrite SplitN_2_app by done. cbn [length Nat.eqb negb nth].
  unfold mbind at 1. unfold M_bind at 1. unfold getConn.
  by destruct (connMap w !! id).
Qed.

(** C7: a line read without error never ends the Ingress loop.  A line
    with no delimiter, a command for an identifier that is not registered,
    and a failed write to the peer each leave one warning in the log (after
    the failed [Write], for the last one); the registry is untouched and
    the loop goes on with the next read. *)
Theorem incoming_recoverable data rest w :
  ∃ w',
    incomingBody (data, None) w = (Continue, w')
    ∧ handleIncoming ((data, None) :: rest) w = handleIncoming rest w'
    ∧ connMap w' = connMap w
    ∧ (":"%char ∉ TrimSpace data →
       trace w' = trace w ++
         [Log "warn: the incoming data does not follow the syntax (port:expr): %s"
              [AStr (TrimSpace data)]])
    ∧ (∀ id expr,
         TrimSpace data = id ++ ":" ++ expr → ":"%char ∉ id →
         connMap w !! id = None →
         trace w' = trace w ++ [Log "warn: no connection exists for %s" [AStr id]])
    ∧ (∀ id expr conn err env,
         TrimSpace data = id ++ ":" ++ expr → ":"%char ∉ id →
         connMap w !! id = Some conn → connEnv w = Some err :: env →
         trace w' = trace w ++
           [ConnWrite conn expr (Some err);
            Log "warn: failed to write data %s to %s: %s"
                [AStr expr; AStr id; AErr err]])
    ∧ Forall isWarning (logged (drop (length (trace w)) (trace w'))).
Proof.
  destruct (incomingBody_line data w) as (w' & Hb & Hm).
  exists w'. split_and!; [done| |done|..].
  - cbn [handleIncoming]. unfold mbind, M_bind. by rewrite Hb.
  - intros H. rewrite incomingBody_malformed in Hb by done. by simplify_eq.
  - intros id expr Ht Hid Hnone. rewrite (incomingBody_split _ id expr) in Hb by done.
    rewrite Hnone in Hb. by simplify_eq.
  - intros id expr conn err env Ht Hid Hsome Henv.
    rewrite (incomingBody_split _ id expr) in Hb by done.
    rewrite Hsome in Hb. unfold mbind, M_bind, connWrite in Hb.
    rewrite Henv in Hb. run_M. simplify_eq. cbn.
    by rewrite <- (assoc_L (++)).
  - destruct (decide (":"%char ∈ TrimSpace data)) as [Hin|Hnin].
    + apply elem_of_split_first in Hin as (id & expr & Ht & Hid).
      rewrite (incomingBody_split _ id expr) in Hb by done.
      destruct (connMap w !! id) as [conn|].
      * unfold mbind, M_bind, connWrite in Hb.
        destruct (connEnv w) as [|[err|] env]; run_M; simplify_eq; cbn;
          rewrite ?drop_app_length, <- ?(assoc_L (++)), ?drop_app_length; cbn;
          repeat constructor.
        by exists (" failed to write data %s to %s: %s" : bytes).
      * simplify_eq. cbn. rewrite drop_app_length. cbn. repeat constructor.
        by eexists.
    + rewrite incomingBody_malformed in Hb by done. simplify_eq. cbn.
      rewrite drop_app_length. cbn. repeat constructor. by eexists.
Qed.

Lemma incoming_recoverable_witness :
  let c := mkConn 7 "127.0.0.1:5000" in
  let w := mkWorld {[ ("5000" : bytes) := c ]} None [] [Some ErrClosedPipe] [] in
  (∃ w', incomingBody ("hello" ++ [LF], None) w = (Continue, w')
         ∧ trace w' = [Log "warn: the incoming data does not follow the syntax (port:expr): %s"
                           [AStr "hello"]])
  ∧ (∃ w', incomingBody ("6000:hello" ++ [LF], None) w = (Continue, w')
           ∧ trace w' = [Log "warn: no connection exists for %s" [AStr "6000"]])
  ∧ (∃ w', incomingBody ("5000:hello" ++ [LF], None) w = (Continue, w')
           ∧ trace w' = [ConnWrite c "hello" (Some ErrClosedPipe);
                         Log "warn: failed to write data %s to %s: %s"
                             [AStr "hello"; AStr "5000"; AErr ErrClosedPipe]]).
Proof.
  intros c w.
  assert (Hnin : ∀ s : bytes, bool_decide (":"%char ∈ s) = false → ":"%char ∉ s).
  { intros s. apply bool_decide_eq_false_1. }
  split_and!.
  - destruct (incoming_recoverable ("hello" ++ [LF]) [] w) as (w' & Hb & _ & _ & H & _).
    exists w'. split; [exact Hb|]. apply H. by apply Hnin.
  - destruct (incoming_recoverable ("6000:hello" ++ [LF]) [] w)
      as (w' & Hb & _ & _ & _ & H & _).
    exists w'. split; [exact Hb|]. apply (H "6000" "hello"); [reflexivity|by apply Hnin|].
    vm_compute. reflexivity.
  - destruct (incoming_recoverable ("5000:hello" ++ [LF]) [] w)
      as (w' & Hb & _ & _ & _ & _ & H & _).
    exists w'. split; [exact Hb|].
    apply (H "5000" "hello" c ErrClosedPipe []); [reflexivity|by apply Hnin| |reflexivity].
    vm_compute. reflexivity.
Defined.


(** * The Acceptor loop *)

Lemma handleAccept_listening l accepts w :
  listener w = Some l → handleAccept accepts w = acceptLoop accepts w.
Proof. intros H. unfold handleAccept. run_M. by rewrite H. Qed.

(** * The buffered writer *)

Lemma written_app tr1 tr2 : written (tr1 ++ tr2) = written tr1 ++ written tr2.
Proof.
  induction tr1 as [|[] tr1 IH]; cbn; [done|..]; try done.
  by rewrite IH, (assoc_L (++)).
Qed.

Lemma logged_app tr1 tr2 : logged (tr1 ++ tr2) = logged tr1 ++ logged tr2.
Proof. induction tr1 as [|[] tr1 IH]; cbn; by rewrite ?IH. Qed.

Lemma logged_onlyOut D : Forall isOutWrite D → logged D = [].
Proof. induction 1 as [|[] D H _ IH]; cbn; done. Qed.

Lemma sameButOut_refl w : sameButOut w w.
Proof. done. Qed.

Lemma sameButOut_trans w1 w2 w3 : sameButOut w1 w2 → sameButOut w2 w3 → sameButOut w1 w3.
Proof. unfold sameButOut. intros (?&?&?) (?&?&?). split_and!; congruence. Qed.

Lemma Flush_spec b w r b' w' :
  Flush b w = ((r, b'), w') →
  sameButOut w w'
  ∧ ∃ D, trace w' = trace w ++ D ∧ Forall isOutWrite D
    ∧ r = err b'
    ∧ (r = None → err b = None ∧ written D = buf b ∧ buf b' = [])
    ∧ (is_Some (err b) → b' = b ∧ D = [])
    ∧ (reliable w → err b = None → r = None ∧ reliable w').
Proof.
  unfold Flush. destruct b as [bf [e0|]]; cbn [Bufio.err Bufio.buf].
  { run_M. intros [= <- <- <-]. split; [done|]. exists []. rewrite app_nil_r.
    split_and!; done. }
  destruct (length bf =? 0) eqn:E0.
  { run_M. intros [= <- <- <-]. apply Nat.eqb_eq, length_zero_iff_nil in E0 as ->.
    split; [done|]. exists []. rewrite app_nil_r.
    split_and!; done. }
  run_M. unfold outWrite, reliable.
  destruct (outEnv w) as [|[|n [e|]] env] eqn:Eo;
    rewrite ?Nat.ltb_irrefl;
    try destruct (n `min` length bf <? length bf) eqn:En;
    intros [= <- <- <-]; (split; [done|]);
    eexists [_]; cbn; (split_and!; [done|by repeat constructor|done|..]);
    try (by intros [??]); try done.
  all: try (intros Hr _; inversion Hr; by simplify_eq).
  all: intros _; split_and!; try done; cbn; rewrite app_nil_r; apply take_ge.
  - done.
  - done.
  - apply Nat.ltb_ge in En. lia.
Qed.

Lemma defaultBufSize_pos : 0 < defaultBufSize.
Proof. unfold defaultBufSize. lia. Qed.

Opaque defaultBufSize.

Lemma writeStringLoop_spec fuel b s nn w b' s' nn' w' :
  writeStringLoop fuel b s nn w = ((b', s', nn'), w') →
  sameButOut w w'
  ∧ ∃ D, trace w' = trace w ++ D ∧ Forall isOutWrite D
    ∧ (err b' = None → err b = None ∧ written D ++ buf b' ++ s' = buf b ++ s)
    ∧ (is_Some (err b) → b' = b ∧ D = [] ∧ s' = s)
    ∧ (length s + (if decide (Available b = 0) then 1 else 0) < fuel →
       is_Some (err b') ∨ length s' ≤ Available b')
    ∧ (reliable w → err b = None → reliable w' ∧ err b' = None).
Proof.
  revert b s nn w. induction fuel as [|fuel IH]; intros b s nn w.
  { cbn. run_M. intros [= <- <- <- <-]. split; [done|]. exists [].
    rewrite app_nil_r. split_and!; try done. lia. }
  cbn [writeStringLoop].
  destruct (Available b <? length s) eqn:Ea; cycle 1.
  { cbn. run_M. intros [= <- <- <- <-]. split; [done|]. exists [].
    rewrite app_nil_r. split_and!; try done.
    intros _. right. by apply Nat.ltb_ge in Ea. }
  destruct (err b) as [e|] eqn:Eb.
  { rewrite bool_decide_eq_true_2 by eauto. cbn. run_M.
    intros [= <- <- <- <-]. split; [done|]. exists [].
    rewrite app_nil_r. split_and!; try done.
    - by rewrite Eb.
    - intros _. left. rewrite Eb. eauto. }
  rewrite bool_decide_eq_false_2 by (by intros [??]). cbn [negb andb].
  apply Nat.ltb_lt in Ea.
  rewrite (Nat.min_l (Available b) (length s)) by lia.
  run_M.
  destruct (Flush _ w) as [[r b2] w1] eqn:EF.
  apply Flush_spec in EF as (Hs1 & D1 & Ht1 & Ho1 & Hr & Hok1 & _ & Hrel1).
  cbn [Bufio.err Bufio.buf] in *.
  intros Hloop. apply IH in Hloop as (Hs2 & D2 & Ht2 & Ho2 & Hok2 & Herr2 & Hfuel2 & Hrel2).
  split; [by eapply sameButOut_trans|].
  exists (D1 ++ D2). split_and!.
  - by rewrite Ht2, Ht1, (assoc_L (++)).
  - by apply Forall_app.
  - intros Hb'. destruct (Hok2 Hb') as [Hb2 Heq]. split; [done|].
    destruct Hok1 as (_ & Hw1 & Hbuf2); [congruence|].
    rewrite written_app, <- (assoc_L (++)), Heq, Hw1, Hbuf2. cbn [app].
    by rewrite <- (assoc_L (++)), take_drop.
  - by intros [??].
  - intros Hfuel. destruct (err b2) as [e2|] eqn:Eb2.
    + left. destruct Herr2 as (-> & _); [eauto|]. rewrite Eb2. eauto.
    + destruct Hok1 as (_ & _ & Hbuf2); [done|].
      apply Hfuel2. rewrite length_drop.
      pose proof defaultBufSize_pos.
      assert (Available b2 = defaultBufSize) as HA2.
      { unfold Available. rewrite Hbuf2. cbn. lia. }
      rewrite decide_False by lia.
      destruct (decide (Available b = 0)); lia.
  - intros Hrel _. destruct (Hrel1 Hrel eq_refl) as [-> Hrel'].
    apply Hrel2; [done|congruence].
Qed.

Lemma WriteString_spec b s w nn r b' w' :
  WriteString b s w = ((nn, r, b'), w') →
  sameButOut w w'
  ∧ ∃ D, trace w' = trace w ++ D ∧ Forall isOutWrite D
    ∧ r = err b'
    ∧ (r = None → err b = None ∧ written D ++ buf b' = buf b ++ s)
    ∧ (is_Some (err b) → b' = b ∧ D = [])
    ∧ (reliable w → err b = None → r = None ∧ reliable w').
Proof.
  unfold WriteString. run_M.
  destruct (writeStringLoop _ _ _ _ _) as [[[b1 s1] nn1] w1] eqn:EL.
  apply writeStringLoop_spec in EL as (Hs & D & Ht & Ho & Hok & Herr & Hfuel & Hrel).
  destruct (err b1) as [e1|] eqn:Eb1.
  - intros [= <- <- <- <-]. split; [done|]. exists D. split_and!; try done.
    + intros Hsome. by destruct (Herr Hsome) as (? & ? & ?).
    + intros Hrw Hb. destruct (Hrel Hrw Hb); congruence.
  - intros [= <- <- <- <-]. split; [done|]. exists D.
    assert (Hf : length s + (if decide (Available b = 0) then 1 else 0) < 2 + length s).
    { destruct (decide (Available b = 0)); lia. }
    destruct (Hfuel Hf) as [[? ?]|Hfit]; [congruence|].
    rewrite Nat.min_r, take_ge by lia.
    cbn [Bufio.err Bufio.buf]. split_and!; try done.
    + intros Hsome. destruct (Herr Hsome) as (-> & _ & _).
      rewrite Eb1 in Hsome. by destruct Hsome.
    + intros Hrw Hb. split; [done|]. by apply Hrel.
Qed.

(** What the output stream has taken and what is still buffered make up
    what was handed to the writer, also when a write has failed. *)
Lemma Flush_taken b w r b' w' D :
  Flush b w = ((r, b'), w') → trace w' = trace w ++ D →
  written D ++ buf b' = buf b.
Proof.
  unfold Flush. destruct b as [bf [e0|]]; cbn [Bufio.err Bufio.buf].
  { run_M. intros [= <- <- <-] HD.
    rewrite <- (app_nil_r (trace w)) in HD at 1. by apply app_inv_head in HD as <-. }
  destruct (length bf =? 0) eqn:E0.
  { run_M. intros [= <- <- <-] HD.
    rewrite <- (app_nil_r (trace w)) in HD at 1. by apply app_inv_head in HD as <-. }
  run_M. unfold outWrite.
  destruct (outEnv w) as [|[|n [e|]] env] eqn:Eo;
    rewrite ?Nat.ltb_irrefl;
    try destruct (n `min` length bf <? length bf) eqn:En;
    intros [= <- <- <-] HD; cbn in HD; apply app_inv_head in HD as <-;
    cbn [written Bufio.buf]; rewrite ?app_nil_r; try apply take_drop.
  - by rewrite firstn_all.
  - by rewrite firstn_all.
  - apply take_ge. apply Nat.ltb_ge in En. lia.
Qed.

Lemma writeStringLoop_taken fuel b s nn w b' s' nn' w' D :
  writeStringLoop fuel b s nn w = ((b', s', nn'), w') → trace w' = trace w ++ D →
  written D ++ buf b' ++ s' = buf b ++ s.
Proof.
  revert b s nn w D. induction fuel as [|fuel IH]; intros b s nn w D.
  { cbn. run_M. intros [= <- <- <- <-] HD.
    rewrite <- (app_nil_r (trace w)) in HD at 1. by apply app_inv_head in HD as <-. }
  cbn [writeStringLoop].
  destruct (_ && _) eqn:Ec; cycle 1.
  { run_M. intros [= <- <- <- <-] HD.
    rewrite <- (app_nil_r (trace w)) in HD at 1. by apply app_inv_head in HD as <-. }
  run_M.
  destruct (Flush _ w) as [[r b2] w1] eqn:EF.
  pose proof EF as (_ & D1 & Ht1 & _)%Flush_spec.
  pose proof (Flush_taken _ _ _ _ _ _ EF Ht1) as H1. cbn [Bufio.buf] in H1.
  intros Hloop HD.
  pose proof Hloop as (_ & D2 & Ht2 & _)%writeStringLoop_spec.
  pose proof (IH _ _ _ _ _ Hloop Ht2) as H2.
  rewrite Ht2, Ht1, <- (assoc_L (++)) in HD. apply app_inv_head in HD as <-.
  rewrite written_app, <- (assoc_L (++)), H2, (assoc_L (++)), H1, <- (assoc_L (++)).
  by rewrite take_drop.
Qed.

Lemma WriteString_taken b s w nn r b' w' D :
  WriteString b s w = ((nn, r, b'), w') → trace w' = trace w ++ D →
  written D ++ buf b' `prefix_of` buf b ++ s.
Proof.
  unfold WriteString. run_M.
  destruct (writeStringLoop _ _ _ _ _) as [[[b1 s1] nn1] w1] eqn:EL.
  destruct (err b1) as [e1|] eqn:Eb1; intros [= <- <- <- <-] HD;
    pose proof (writeStringLoop_taken _ _ _ _ _ _ _ _ _ _ EL HD) as H.
  - exists s1. by rewrite <- (assoc_L (++)).
  - cbn [Bufio.buf]. exists (drop (Available b1 `min` length s1) s1).
    by rewrite <- !(assoc_L (++)), take_drop.
Qed.

Lemma idle_NewWriter : idle NewWriter.
Proof. done. Qed.

(** [WriteString] then [Flush] on a reliable output stream. *)
Lemma emit_reliable b s w :
  reliable w → err b = None → buf b = [] →
  ∃ nn b1 w1 w2 D,
    WriteString b s w = ((nn, None, b1), w1)
    ∧ Flush b1 w1 = ((None, NewWriter), w2)
    ∧ sameButOut w w2 ∧ trace w2 = trace w ++ D ∧ Forall isOutWrite D
    ∧ written D = s ∧ reliable w2.
Proof.
  intros Hrel Hb Hbuf.
  destruct (WriteString b s w) as [[[nn r1] b1] w1] eqn:EW.
  pose proof EW as (Hs1 & D1 & Ht1 & Ho1 & Hr1 & Hok1 & _ & Hrel1)%WriteString_spec.
  destruct (Hrel1 Hrel Hb) as [-> Hrel'].
  destruct (Hok1 eq_refl) as [_ Hw1].
  destruct (Flush b1 w1) as [[r2 b2] w2] eqn:EF.
  pose proof EF as (Hs2 & D2 & Ht2 & Ho2 & Hr2 & Hok2 & _ & Hrel2)%Flush_spec.
  destruct (Hrel2 Hrel' (eq_sym Hr1)) as [-> Hrel''].
  destruct (Hok2 eq_refl) as (_ & Hw2 & Hbuf2).
  assert (b2 = NewWriter) as ->.
  { destruct b2 as [??]. cbn in *. by subst. }
  exists nn, b1, w1, w2, (D1 ++ D2). split_and!; try done.
  - by eapply sameButOut_trans.
  - by rewrite Ht2, Ht1, (assoc_L (++)).
  - by apply Forall_app.
  - rewrite written_app, Hw2, Hw1, Hbuf. done.
Qed.

(** * The Egress handler *)

Lemma isOutWrite_orLog D : Forall isOutWrite D → Forall isOutWriteOrLog D.
Proof. intros H. eapply Forall_impl; [exact H|]. by intros []. Qed.

Lemma outgoingBody_spec port conn b rd w l b' w' :
  outgoingBody port conn b rd w = ((l, b'), w') →
  sameButOut w w' ∧ (idle b → idle b')
  ∧ ∃ D, trace w' = trace w ++ D ∧ Forall isOutWriteOrLog D.
Proof.
  unfold outgoingBody. destruct rd as [data [e|]].
  { destruct (isEOF e || isErrClosedPipe e); run_M; intros [= <- <- <-];
      (split_and!; [done..|]); exists []; by rewrite app_nil_r. }
  run_M.
  destruct (WriteString _ _ w) as [[[nn r1] b1] w1] eqn:EW.
  apply WriteString_spec in EW as (Hs1 & D1 & Ht1 & Ho1 & Hr1 & Hok1 & _ & _).
  destruct r1 as [e1|].
  { intros [= <- <- <-]. split_and!.
    - done.
    - intros _ Hb1. congruence.
    - exists (D1 ++ [Log "warn: failed to write data %s from %s: %s"
                       [AStr data; AConn conn; AErr e1]]).
      cbn. split; [by rewrite Ht1, (assoc_L (++))|].
      apply Forall_app. split; [by apply isOutWrite_orLog|]. by repeat constructor. }
  destruct (Flush b1 w1) as [[r2 b2] w2] eqn:EF.
  apply Flush_spec in EF as (Hs2 & D2 & Ht2 & Ho2 & Hr2 & Hok2 & _ & _).
  assert (Hframe : sameButOut w w2) by (by eapply sameButOut_trans).
  assert (Htr : ∃ D, trace w2 = trace w ++ D ∧ Forall isOutWriteOrLog D).
  { exists (D1 ++ D2). split; [by rewrite Ht2, Ht1, (assoc_L (++))|].
    apply Forall_app. split; by apply isOutWrite_orLog. }
  destruct r2 as [e2|]; intros [= <- <- <-]; (split_and!; [done| |done]).
  - intros _ Hb2. congruence.
  - intros _ _. by destruct (Hok2 eq_refl) as (_ & _ & ?).
Qed.

Lemma outgoingLoop_spec port conn input b w o b' w' :
  outgoingLoop port conn b input w = ((o, b'), w') →
  sameButOut w w' ∧ (idle b → idle b')
  ∧ ∃ D, trace w' = trace w ++ D ∧ Forall isOutWriteOrLog D.
Proof.
  revert b w. induction input as [|rd input IH]; intros b w; cbn [outgoingLoop].
  { run_M. intros [= <- <- <-]. split_and!; [done..|]. exists []. by rewrite app_nil_r. }
  run_M. destruct (outgoingBody port conn b rd w) as [[l b1] w1] eqn:EB.
  apply outgoingBody_spec in EB as (Hs1 & Hi1 & D1 & Ht1 & Ho1).
  destruct l as [|r].
  - intros (Hs2 & Hi2 & D2 & Ht2 & Ho2)%IH. split_and!.
    + by eapply sameButOut_trans.
    + auto.
    + exists (D1 ++ D2). split; [by rewrite Ht2, Ht1, (assoc_L (++))|].
      by apply Forall_app.
  - intros [= <- <- <-]. split_and!; [done..|]. by exists D1.
Qed.

Lemma outgoingLoop_app port conn xs ys b w :
  outgoingLoop port conn b (xs ++ ys) w
  = match outgoingLoop port conn b xs w with
    | ((Blocked, b'), w') => outgoingLoop port conn b' ys w'
    | r => r
    end.
Proof.
  revert b w. induction xs as [|rd xs IH]; intros b w; [done|].
  cbn [app outgoingLoop]. run_M.
  destruct (outgoingBody port conn b rd w) as [[[|r] b1] w1]; [apply IH|done].
Qed.

Lemma logged_Log D f a : Forall isOutWrite D → logged (D ++ [Log f a]) = [(f, a)].
Proof. intros H. by rewrite logged_app, (logged_onlyOut D). Qed.

(** The deferred function of [handleOutgoing], whatever the writer and the
    output stream are like: what it puts on the output stream, what it
    logs, and what it leaves. *)
Lemma outgoingDeferred_spec port conn b w :
  idle b →
  ∃ w' D,
    outgoingDeferred port conn b w = (tt, w')
    ∧ connMap w' = delete port (connMap w)
    ∧ trace w' = trace w ++ D ++ [ConnClose conn]
    ∧ Forall isOutWriteOrLog D
    ∧ written D `prefix_of` encode (Disconnect port)
    ∧ (err b = None → reliable w →
       written D = encode (Disconnect port) ∧ logged D = [])
    ∧ ((written D = encode (Disconnect port) ∧ logged D = [])
       ∨ (∃ e, logged D = [("error: failed to flush: %s" : bytes, [AErr e])])
       ∨ (∃ e, logged D
               = [("warn: failed to write disconnection from %s: %s" : bytes,
                   [AConn conn; AErr e]);
                  ("error: failed to flush: %s" : bytes, [AErr e])])).
Proof.
  intros Hidle. unfold outgoingDeferred. run_M.
  change (Sprintf2 prefixDisconnect port) with (encode (Disconnect port)).
  set (line := encode (Disconnect port)).
  destruct (WriteString b line w) as [[[nn r1] b1] w1] eqn:EW.
  pose proof EW as ((Hm1 & _) & D1 & Ht1 & Ho1 & Hr1 & Hok1 & Herr1 & Hrel1)%WriteString_spec.
  pose proof (WriteString_taken _ _ _ _ _ _ _ _ EW Ht1) as [s1 Hs1].
  set (L1 := if r1 is Some e1
             then [Log "warn: failed to write disconnection from %s: %s"
                       [AConn conn; AErr e1]] else []).
  set (w1' := if r1 is Some e1
              then mkWorld (connMap w1) (listener w1) (outEnv w1) (connEnv w1)
                     (trace w1 ++ L1) else w1).
  assert (Hw1' : connMap w1' = connMap w1 ∧ outEnv w1' = outEnv w1
                 ∧ trace w1' = trace w1 ++ L1).
  { subst w1' L1. destruct r1; [done|]. by rewrite app_nil_r. }
  destruct Hw1' as (Hm1' & Henv1' & Ht1').
  assert (HF : ∃ r2 b2 w2, Flush b1 w1' = ((r2, b2), w2)).
  { destruct (Flush b1 w1') as [[r2 b2] w2]. by eexists _, _, _. }
  destruct HF as (r2 & b2 & w2 & EF).
  pose proof EF as ((Hm2 & _) & D2 & Ht2 & Ho2 & Hr2 & Hok2 & Herr2 & Hrel2)%Flush_spec.
  pose proof (Flush_taken _ _ _ _ _ _ EF Ht2) as Hs2.
  set (L2 := if r2 is Some e2 then [Log "error: failed to flush: %s" [AErr e2]] else []).
  exists (mkWorld (delete port (connMap w2)) (listener w2) (outEnv w2) (connEnv w2)
            (trace w2 ++ L2 ++ [ConnClose conn])), (D1 ++ L1 ++ D2 ++ L2).
  assert (HwD : written (D1 ++ L1 ++ D2 ++ L2) = written D1 ++ written D2).
  { rewrite !written_app. subst L1 L2. destruct r1, r2; cbn; by rewrite ?app_nil_r. }
  assert (HlD : logged (D1 ++ L1 ++ D2 ++ L2) = logged L1 ++ logged L2).
  { rewrite !logged_app, (logged_onlyOut D1), (logged_onlyOut D2) by done. done. }
  assert (Hpre : written D1 ++ written D2 `prefix_of` line).
  { destruct (err b) as [e|] eqn:Eb.
    - destruct Herr1 as [-> ->]; [eauto|].
      destruct Herr2 as [_ ->]; [rewrite Eb; eauto|]. apply prefix_nil.
    - rewrite (Hidle Eb) in Hs1. cbn [app] in Hs1.
      exists (buf b2 ++ s1). rewrite Hs1, <- Hs2.
      by rewrite <- !(assoc_L (++)). }
  split_and!.
  - subst w1' L1 L2.
    destruct r1 as [e1|]; rewrite EF; destruct r2; cbn; by rewrite <- ?(assoc_L (++)).
  - cbn. congruence.
  - cbn. rewrite Ht2, Ht1', Ht1.
    by repeat (progress cbn [app] || rewrite <- (assoc_L (++))).
  - rewrite !Forall_app. split_and!; try (by apply isOutWrite_orLog).
    + subst L1. destruct r1; by repeat constructor.
    + subst L2. destruct r2; by repeat constructor.
  - by rewrite HwD.
  - intros Hb Hrel. destruct (Hrel1 Hrel Hb) as [-> Hrel'].
    destruct (Hrel2 Hrel' (eq_sym Hr1)) as [-> _].
    destruct (Hok1 eq_refl) as [_ Hw1]. destruct (Hok2 eq_refl) as (_ & Hw2 & _).
    rewrite HwD, HlD. split; [|done].
    by rewrite Hw2, Hw1, (Hidle Hb).
  - rewrite HwD, HlD. destruct r1 as [e1|], r2 as [e2|].
    + right; right. exists e1.
      destruct Herr2 as [-> _]; [rewrite <- Hr1; eauto|].
      cbn. congruence.
    + destruct Herr2 as [-> _]; [rewrite <- Hr1; eauto|]. congruence.
    + right; left. by exists e2.
    + left. destruct (Hok1 eq_refl) as [Hb Hw1]. destruct (Hok2 eq_refl) as (_ & Hw2 & _).
      split; [|done]. by rewrite Hw2, Hw1, (Hidle Hb).
Qed.

(** C5: however the loop of an Egress handler ends (with [nil] or with an
    error [r]), the handler returns that same [r] after the deferred
    cleanup.  The cleanup puts the disconnect event [d:<id>], or a part of
    it, and nothing else on the output stream; the whole event and no log
    line when no error is pending in the writer and the output stream
    takes what it is given.  A failure is logged and goes no further: the
    log has no line and the event is written, or it has the one line of
    the failed flush, or the warning of the failed write followed by the
    line of the failed flush.  Then the identifier is no longer in the
    registry, and the last thing done is to close the socket. *)
Theorem egress_cleanup port conn input w r b w1 :
  outgoingLoop port conn NewWriter input w = ((Returned r, b), w1) →
  ∃ w' D,
    handleOutgoing port conn input w = (Returned r, w')
    ∧ connMap w' = delete port (connMap w)
    ∧ connMap w' !! port = None
    ∧ trace w' = trace w1 ++ D ++ [ConnClose conn]
    ∧ Forall isOutWriteOrLog D
    ∧ written D `prefix_of` encode (Disconnect port)
    ∧ (err b = None → reliable w1 →
       written D = encode (Disconnect port) ∧ logged D = [])
    ∧ ((written D = encode (Disconnect port) ∧ logged D = [])
       ∨ (∃ e, logged D = [("error: failed to flush: %s" : bytes, [AErr e])])
       ∨ (∃ e, logged D
               = [("warn: failed to write disconnection from %s: %s" : bytes,
                   [AConn conn; AErr e]);
                  ("error: failed to flush: %s" : bytes, [AErr e])])).
Proof.
  intros Hloop. unfold handleOutgoing. run_M. rewrite Hloop.
  apply outgoingLoop_spec in Hloop as ((Hm & _) & Hidle & _).
  destruct (outgoingDeferred_spec port conn b w1 (Hidle idle_NewWriter))
    as (w' & D & -> & Hm' & Ht & Ho & Hpre & Hrel & Hlog).
  exists w', D. split_and!; try done.
  - congruence.
  - rewrite Hm'. apply lookup_delete_eq.
Qed.

Lemma egress_cleanup_witness :
  let c := mkConn 7 "127.0.0.1:5000" in
  let input : list ReadResult := [("hi" ++ [CR; LF], None); ([], Some EOF)] in
  let w := mkWorld {[ ("5000" : bytes) := c ]} None [] [] [] in
  ∃ w' D,
    handleOutgoing "5000" c input w = (Returned None, w')
    ∧ connMap w' = delete ("5000" : bytes) (connMap w)
    ∧ connMap w' !! ("5000" : bytes) = None
    ∧ trace w' = trace (outgoingLoop "5000" c NewWriter input w).2 ++ D ++ [ConnClose c]
    ∧ Forall isOutWriteOrLog D
    ∧ written D = encode (Disconnect "5000") ∧ logged D = [].
Proof.
  intros c input w.
  destruct (egress_cleanup "5000" c input w None
              (outgoingLoop "5000" c NewWriter input w).1.2
              (outgoingLoop "5000" c NewWriter input w).2)
    as (w' & D & HO & Hm & Hp & Ht & Ho & _ & Hrel & _).
  { vm_compute. reflexivity. }
  exists w', D. split_and!; try done; apply Hrel; try reflexivity; constructor.
Defined.


Lemma handleOutgoing_result port conn input w r b w1 :
  outgoingLoop port conn NewWriter input w = ((Returned r, b), w1) →
  (handleOutgoing port conn input w).1 = Returned r.
Proof.
  intros Hloop. unfold handleOutgoing. run_M. rewrite Hloop.
  by destruct (outgoingDeferred port conn b w1).
Qed.

Lemma WriteString_fits b s w :
  err b = None → length s ≤ Available b →
  WriteString b s w = ((length s, None, mkWriter (buf b ++ s) None), w).
Proof.
  intros Hb Hfit. unfold WriteString. cbn [Nat.add writeStringLoop].
  rewrite (proj2 (Nat.ltb_ge _ _) Hfit). cbn [andb]. run_M. rewrite Hb.
  by rewrite Nat.min_r, take_ge by lia.
Qed.

Lemma Flush_fails b w n oe env :
  err b = None → buf b ≠ [] → outEnv w = WPart n oe :: env →
  is_Some oe ∨ n < length (buf b) →
  ∃ e b' w', Flush b w = ((Some e, b'), w').
Proof.
  intros Hb Hne Henv Hfail. unfold Flush. rewrite Hb.
  destruct (length (buf b) =? 0) eqn:E0.
  { apply Nat.eqb_eq, length_zero_iff_nil in E0. done. }
  run_M. unfold outWrite. rewrite Henv.
  destruct oe as [e|]; [by eexists _, _, _|].
  destruct Hfail as [[? [=]]|Hn].
  rewrite (proj2 (Nat.ltb_lt _ _)) by lia. by eexists _, _, _.
Qed.

(** ** On a reliable output stream *)

Lemma outgoingBody_reliable port conn data w :
  reliable w →
  ∃ w' D,
    outgoingBody port conn NewWriter (data, None) w = ((Continue, NewWriter), w')
    ∧ sameButOut w w' ∧ trace w' = trace w ++ D ∧ Forall isOutWrite D
    ∧ written D = encode (Receive port (TrimSpace data)) ∧ reliable w'.
Proof.
  intros Hrel.
  destruct (emit_reliable NewWriter (encode (Receive port (TrimSpace data))) w)
    as (nn & b1 & w1 & w2 & D & HW & HF & Hs & Ht & Ho & Hw & Hrel'); [done..|].
  exists w2, D. split_and!; try done.
  unfold outgoingBody. run_M.
  change (Sprintf3 prefixReceive port (TrimSpace data))
    with (encode (Receive port (TrimSpace data))).
  by rewrite HW, HF.
Qed.

Lemma outgoingLoop_reliable port conn lines input w :
  reliable w →
  ∃ w' D,
    outgoingLoop port conn NewWriter (((λ d, (d, None)) <$> lines) ++ input) w
    = outgoingLoop port conn NewWriter input w'
    ∧ sameButOut w w' ∧ trace w' = trace w ++ D ∧ Forall isOutWrite D
    ∧ written D = concat (encode <$> (Receive port ∘ TrimSpace <$> lines))
    ∧ reliable w'.
Proof.
  revert w. induction lines as [|d lines IH]; intros w Hrel.
  { exists w, []. rewrite app_nil_r. by split_and!. }
  destruct (outgoingBody_reliable port conn d w Hrel)
    as (w1 & D1 & HB & Hs1 & Ht1 & Ho1 & Hw1 & Hrel1).
  destruct (IH w1 Hrel1) as (w2 & D2 & HL & Hs2 & Ht2 & Ho2 & Hw2 & Hrel2).
  exists w2, (D1 ++ D2). split_and!; try done.
  - cbn [fmap list_fmap app outgoingLoop]. run_M. by rewrite HB.
  - by eapply sameButOut_trans.
  - by rewrite Ht2, Ht1, (assoc_L (++)).
  - by apply Forall_app.
  - rewrite written_app, Hw1, Hw2. done.
Qed.

Lemma outgoingDeferred_reliable port conn w :
  reliable w →
  ∃ w' D,
    outgoingDeferred port conn NewWriter w = (tt, w')
    ∧ connMap w' = delete port (connMap w)
    ∧ trace w' = trace w ++ D ++ [ConnClose conn] ∧ Forall isOutWrite D
    ∧ written D = encode (Disconnect port) ∧ reliable w'.
Proof.
  intros Hrel.
  destruct (emit_reliable NewWriter (encode (Disconnect port)) w)
    as (nn & b1 & w1 & w2 & D & HW & HF & (Hm & _) & Ht & Ho & Hw & Hrel'); [done..|].
  eexists _, D. split_and!; [| | |exact Ho|exact Hw|].
  - unfold outgoingDeferred. run_M.
    change (Sprintf2 prefixDisconnect port) with (encode (Disconnect port)).
    rewrite HW, HF. reflexivity.
  - cbn. congruence.
  - cbn. by rewrite Ht, (assoc_L (++)).
  - done.
Qed.

Lemma acceptBody_reliable conn host port w :
  SplitHostPort (RemoteAddr conn) = inl (host, port) → reliable w →
  ∃ w1 D,
    acceptBody (inl conn) w = (Continue, w1)
    ∧ connMap w1 = <[port := conn]> (connMap w)
    ∧ trace w1 = trace w ++ D ++ [Go port conn] ∧ Forall isOutWrite D
    ∧ written D = encode (Connect port) ∧ reliable w1.
Proof.
  intros Hsplit Hrel.
  set (w0 := mkWorld (<[port := conn]> (connMap w)) (listener w) (outEnv w) (connEnv w)
               (trace w)).
  destruct (emit_reliable NewWriter (encode (Connect port)) w0)
    as (nn & b1 & w1 & w2 & D & HW & HF & (Hm & _) & Ht & Ho & Hw & Hrel'); [done..|].
  eexists _, D. split_and!; [| | |exact Ho|exact Hw|].
  - unfold acceptBody. rewrite Hsplit. run_M.
    change (Sprintf2 prefixConnect port) with (encode (Connect port)).
    fold w0. rewrite HW, HF. reflexivity.
  - cbn. by rewrite Hm.
  - cbn. by rewrite Ht, (assoc_L (++)).
  - done.
Qed.

Lemma handleOutgoing_reliable port conn lines data e rest w :
  reliable w →
  ∃ r w' D,
    handleOutgoing port conn (((λ d, (d, None)) <$> lines) ++ (data, Some e) :: rest) w
    = (Returned r, w')
    ∧ connMap w' = delete port (connMap w)
    ∧ trace w' = trace w ++ D ++ [ConnClose conn] ∧ Forall isOutWrite D
    ∧ written D
      = concat (encode <$> ((Receive port ∘ TrimSpace <$> lines) ++ [Disconnect port]))
    ∧ reliable w'.
Proof.
  intros Hrel.
  destruct (outgoingLoop_reliable port conn lines ((data, Some e) :: rest) w Hrel)
    as (w1 & D1 & HL & (Hm1 & _) & Ht1 & Ho1 & Hw1 & Hrel1).
  destruct (outgoingDeferred_reliable port conn w1 Hrel1)
    as (w2 & D2 & HD & Hm2 & Ht2 & Ho2 & Hw2 & Hrel2).
  set (r := if isEOF e || isErrClosedPipe e then None
            else Some (Errorf "error: failed to read outgoing data: %w" [] e)).
  exists r, w2, (D1 ++ D2). split_and!; try done.
  - unfold handleOutgoing. run_M. rewrite HL.
    cbn [outgoingLoop outgoingBody]. run_M. subst r.
    destruct (isEOF e || isErrClosedPipe e); by rewrite HD.
  - congruence.
  - by rewrite Ht2, Ht1, !(assoc_L (++)).
  - by apply Forall_app.
  - rewrite written_app, Hw1, Hw2, fmap_app, concat_app. cbn. by rewrite app_nil_r.
Qed.

(** C2, as amended: on an output stream that takes every write, the
    Acceptor registers an accepted connection, writes its connect event
    and only then starts its Egress handler; the handler, when the reads
    of the socket end (with any error [e]), has written one receive event
    for each line read, in order, then the disconnect event, and then
    closed the socket: one connect before the receives, one disconnect
    after the last of them. *)
Theorem connection_lifecycle conn host port lines data e rest w :
  SplitHostPort (RemoteAddr conn) = inl (host, port) →
  reliable w →
  (∃ w1 D,
     acceptBody (inl conn) w = (Continue, w1)
     ∧ connMap w1 = <[port := conn]> (connMap w)
     ∧ trace w1 = trace w ++ D ++ [Go port conn] ∧ Forall isOutWrite D
     ∧ written D = encode (Connect port) ∧ reliable w1)
  ∧ (∀ w2, reliable w2 →
     ∃ r w3 D,
       handleOutgoing port conn (((λ d, (d, None)) <$> lines) ++ (data, Some e) :: rest) w2
       = (Returned r, w3)
       ∧ connMap w3 = delete port (connMap w2)
       ∧ trace w3 = trace w2 ++ D ++ [ConnClose conn] ∧ Forall isOutWrite D
       ∧ written D
         = concat (encode <$> ((Receive port ∘ TrimSpace <$> lines) ++ [Disconnect port]))
       ∧ reliable w3).
Proof.
  intros Hsplit Hrel. split.
  - by eapply acceptBody_reliable.
  - intros w2 Hrel2. by apply handleOutgoing_reliable.
Qed.

Lemma connection_lifecycle_witness :
  let c := mkConn 7 "127.0.0.1:5000" in
  let w := mkWorld ∅ (Some (mkListener "127.0.0.1:40000")) [] [] [] in
  (∃ w1 D,
     acceptBody (inl c) w = (Continue, w1)
     ∧ connMap w1 = <[("5000" : bytes) := c]> (connMap w)
     ∧ trace w1 = trace w ++ D ++ [Go "5000" c] ∧ Forall isOutWrite D
     ∧ written D = encode (Connect "5000") ∧ reliable w1)
  ∧ (∀ w2, reliable w2 →
     ∃ r w3 D,
       handleOutgoing "5000" c
         (((λ d, (d, None)) <$> ["hello" ++ [LF]; "a:b" ++ [CR; LF]]) ++ [([], Some EOF)]) w2
       = (Returned r, w3)
       ∧ connMap w3 = delete ("5000" : bytes) (connMap w2)
       ∧ trace w3 = trace w2 ++ D ++ [ConnClose c] ∧ Forall isOutWrite D
       ∧ written D
         = concat (encode <$> ((Receive "5000" ∘ TrimSpace <$> ["hello" ++ [LF]; "a:b" ++ [CR; LF]])
                               ++ [Disconnect "5000"]))
       ∧ reliable w3).
Proof.
  intros c w.
  apply (connection_lifecycle c "127.0.0.1" "5000" ["hello" ++ [LF]; "a:b" ++ [CR; LF]]
           [] EOF [] w).
  - vm_compute. reflexivity.
  - constructor.
Defined.

(** C2, as stated, fails: when the output stream refuses the write of the
    disconnect event (here the stream is closed after the first receive
    event) the handler returns with no disconnect event written. *)
Lemma disconnect_event_missing :
  ¬ disconnect_follows_receives "5000" (mkConn 7 "127.0.0.1:5000")
      [("hi" ++ [LF], None); ([], Some EOF)]
      (New [WAll; WPart 0 (Some ErrClosedPipe)] []).
Proof.
  intros H. edestruct H as [k Hk]; [vm_compute; reflexivity|].
  vm_compute in Hk.
  assert (Hlen : length k = 3).
  { apply (f_equal length) in Hk. rewrite length_app in Hk. cbn in Hk. lia. }
  destruct k as [|? [|? [|? [|? k]]]]; try discriminate Hlen. discriminate Hk.
Qed.

(** * The payload of a receive event *)

Section Dropped.
Context (p1 : ascii → bool) (p2 : ascii → ascii → bool) (p3 : ascii → ascii → ascii → bool).

(** What the scan drops is itself dropped whole by the scan. *)
Lemma trimFront_dropped s :
  ∃ pre, s = pre ++ trimFront p1 p2 p3 s ∧ trimFront p1 p2 p3 pre = [].
Proof.
  remember (length s) as n eqn:Hn. revert s Hn.
  induction n as [n IH] using lt_wf_ind. intros s ->.
  assert (Hrec : ∀ t, length t < length s →
            ∃ pre, t = pre ++ trimFront p1 p2 p3 t ∧ trimFront p1 p2 p3 pre = []).
  { intros t Ht. by eapply IH. }
  clear IH.
  destruct s as [|c1 s1]; [by exists []|].
  destruct (p1 c1) eqn:E1.
  { destruct (Hrec s1) as (pre & Hs & Hp); [simpl; lia|].
    exists (c1 :: pre). cbn [trimFront app]. rewrite E1. split; [congruence|done]. }
  destruct s1 as [|c2 s2].
  { exists []. cbn. by rewrite E1. }
  destruct (p2 c1 c2) eqn:E2.
  { destruct (Hrec s2) as (pre & Hs & Hp); [simpl; lia|].
    exists (c1 :: c2 :: pre). cbn [trimFront app]. rewrite E1, E2.
    split; [congruence|done]. }
  destruct s2 as [|c3 s3].
  { exists []. cbn. by rewrite E1, E2. }
  destruct (p3 c1 c2 c3) eqn:E3.
  { destruct (Hrec s3) as (pre & Hs & Hp); [simpl; lia|].
    exists (c1 :: c2 :: c3 :: pre). cbn [trimFront app]. rewrite E1, E2, E3.
    split; [congruence|done]. }
  exists []. cbn. by rewrite E1, E2, E3.
Qed.
End Dropped.

Lemma TrimSpace_dropped s :
  ∃ pre post,
    s = pre ++ TrimSpace s ++ post ∧ TrimLeftSpace pre = [] ∧ TrimRightSpace post = [].
Proof.
  destruct (trimFront_dropped asciiSpace space2 space3 s) as (pre & Hs & Hpre).
  fold (TrimLeftSpace s) in Hs.
  destruct (trimFront_dropped asciiSpace (λ c2 c1, space2 c1 c2)
              (λ c3 c2 c1, space3 c1 c2 c3) (reverse (TrimLeftSpace s)))
    as (post & Ht & Hpost).
  exists pre, (reverse post). split_and!.
  - rewrite Hs at 1. f_equal. unfold TrimSpace, TrimRightSpace.
    rewrite <- reverse_app, <- Ht. by rewrite reverse_involutive.
  - done.
  - unfold TrimRightSpace. by rewrite reverse_involutive, Hpost.
Qed.

Lemma TrimSpace_ends s c :
  head (TrimSpace s) = Some c ∨ last (TrimSpace s) = Some c → asciiSpace c = false.
Proof.
  intros [H|H].
  - pose proof (TrimSpace_startsSpace s) as Hs.
    destruct (TrimSpace s) as [|c1 t]; simplify_eq/=.
    unfold startsSpace in Hs. cbn in Hs. by apply orb_false_elim in Hs as [? _].
  - pose proof (TrimSpace_endsSpace s) as Hs.
    rewrite <- head_reverse in H. unfold endsSpace in Hs.
    destruct (reverse (TrimSpace s)) as [|c1 t]; simplify_eq/=.
    by apply orb_false_elim in Hs as [? _].
Qed.

(** A line as [ReadString] returns it holds one newline, at its end; none
    is left in the trimmed line. *)
Lemma TrimSpace_no_LF l : LF ∉ l → LF ∉ TrimSpace (l ++ [LF]).
Proof.
  intros Hl. unfold TrimSpace.
  destruct (TrimLeftSpace_suffix (l ++ [LF])) as [k Hk].
  destruct (TrimLeftSpace (l ++ [LF])) as [|c t _] using rev_ind.
  { vm_compute. apply not_elem_of_nil. }
  rewrite (assoc_L (++)) in Hk. apply app_inj_tail in Hk as [-> <-].
  rewrite TrimRightSpace_LF. intros Hin. apply Hl.
  destruct (TrimRightSpace_prefix t) as [k' Hk']. rewrite Hk'.
  apply elem_of_app. right. apply elem_of_app. by left.
Qed.

(** C10, as amended: for a line read from the peer, the payload of the
    receive event (written whole when the output stream takes it) is the
    line without its leading and trailing white space: what is dropped at
    each end is white space only, and the payload neither begins nor ends
    with a white space rune (no terminating newline, no carriage return
    before it, no blank or tab at either end); the newline that ends the
    line being the only one, the payload holds none.  White space inside
    the line is kept. *)
Theorem receive_payload_trimmed port conn data w :
  reliable w →
  (∃ w' D,
     outgoingBody port conn NewWriter (data, None) w = ((Continue, NewWriter), w')
     ∧ trace w' = trace w ++ D ∧ Forall isOutWrite D
     ∧ written D = encode (Receive port (TrimSpace data)))
  ∧ (∃ pre post,
       data = pre ++ TrimSpace data ++ post
       ∧ TrimLeftSpace pre = [] ∧ TrimRightSpace post = [])
  ∧ startsSpace (TrimSpace data) = false
  ∧ endsSpace (TrimSpace data) = false
  ∧ (∀ c, head (TrimSpace data) = Some c ∨ last (TrimSpace data) = Some c →
          asciiSpace c = false)
  ∧ (∀ l, data = l ++ [LF] → LF ∉ l → LF ∉ TrimSpace data).
Proof.
  intros Hrel. split_and!.
  - destruct (outgoingBody_reliable port conn data w Hrel)
      as (w' & D & HB & _ & Ht & Ho & Hw & _).
    by exists w', D.
  - apply TrimSpace_dropped.
  - apply TrimSpace_startsSpace.
  - apply TrimSpace_endsSpace.
  - apply TrimSpace_ends.
  - intros l -> Hl. by apply TrimSpace_no_LF.
Qed.

Lemma receive_payload_trimmed_witness :
  let c := mkConn 7 "127.0.0.1:5000" in
  let data : bytes := "  hello world " ++ [CR; LF] in
  let w := New [] [] in
  (∃ w' D,
     outgoingBody "5000" c NewWriter (data, None) w = ((Continue, NewWriter), w')
     ∧ trace w' = trace w ++ D ∧ Forall isOutWrite D
     ∧ written D = encode (Receive "5000" (TrimSpace data)))
  ∧ (∃ pre post,
       data = pre ++ TrimSpace data ++ post
       ∧ TrimLeftSpace pre = [] ∧ TrimRightSpace post = [])
  ∧ startsSpace (TrimSpace data) = false
  ∧ endsSpace (TrimSpace data) = false
  ∧ (∀ c, head (TrimSpace data) = Some c ∨ last (TrimSpace data) = Some c →
          asciiSpace c = false)
  ∧ (∀ l, data = l ++ [LF] → LF ∉ l → LF ∉ TrimSpace data).
Proof.
  intros c data w. apply (receive_payload_trimmed "5000" c data w). constructor.
Defined.

(** C10, as stated, fails: a carriage return inside the line stays in the
    payload. *)
Lemma receive_keeps_inner_CR :
  ¬ receive_without_CR "5000" (mkConn 7 "127.0.0.1:5000")
      ("a" ++ [CR] ++ "b" ++ [CR; LF]) (New [] []).
Proof.
  intros H. eapply H; [vm_compute; reflexivity|].
  vm_compute. by repeat constructor.
Qed.

(** * The codec *)

Lemma decode_Sprintf3 tag a b :
  ":"%char ∉ tag →
  decode (Sprintf3 tag a b) = [TrimLeftSpace tag; a ++ ":" ++ TrimRightSpace b].
Proof.
  intros Htag. unfold decode, Sprintf3. cbn [String.list_ascii_of_string app].
  replace (tag ++ ":"%char :: a ++ ":"%char :: b ++ [LF])
    with (tag ++ ":"%char :: (a ++ ":"%char :: b) ++ [LF])
    by (by rewrite <- (assoc_L (++))).
  rewrite TrimSpace_line, TrimRightSpace_colon.
  change delim with [":"%char]. rewrite SplitN_2_app; [done|].
  intros Hin. apply Htag. destruct (TrimLeftSpace_suffix tag) as [k Hk].
  rewrite Hk. apply elem_of_app. by right.
Qed.

(** C4, as amended: when neither the tag nor the first field holds the
    delimiter, the tag does not begin with white space and the last field
    does not end with white space (decoding trims the line), decoding the
    encoded line yields the tag and the remainder [a:b], where [b] may
    hold delimiters, and cutting the remainder at its first delimiter
    gives back [a] and [b]. *)
Theorem codec_roundtrip tag a b :
  ":"%char ∉ tag → ":"%char ∉ a →
  startsSpace tag = false → endsSpace b = false →
  roundtrips tag a b.
Proof.
  intros Htag Ha Hs He. split.
  - rewrite decode_Sprintf3 by done.
    by rewrite TrimLeftSpace_id, TrimRightSpace_id.
  - cbn [String.list_ascii_of_string app]. change delim with [":"%char].
    by rewrite SplitN_2_app.
Qed.

Lemma codec_roundtrip_witness : roundtrips "r" "5000" "GET /a:b HTTP/1.0".
Proof.
  apply (codec_roundtrip "r" "5000" "GET /a:b HTTP/1.0"); try reflexivity.
  - vm_compute. intros H.
    repeat (apply elem_of_cons in H as [?|H]; [done|]). by apply elem_of_nil in H.
  - vm_compute. intros H.
    repeat (apply elem_of_cons in H as [?|H]; [done|]). by apply elem_of_nil in H.
Defined.

(** C4, as stated, fails: with a delimiter in the first field, cutting the
    remainder at its first delimiter does not give the fields back. *)
Lemma roundtrip_fails_on_delimiter : ¬ roundtrips "r" "1:2" "3".
Proof. intros [_ H]. vm_compute in H. discriminate H. Qed.

(** Decoding trims the line: white space at the end of the last field is
    lost as well. *)
Lemma roundtrip_fails_on_trailing_space : ¬ roundtrips "r" "5000" "hi ".
Proof. intros [H _]. vm_compute in H. discriminate H. Qed.

(** ** The identifier of a connection *)

Lemma IndexByte_Some (s : bytes) c i :
  IndexByte s c = Some i → i < length s ∧ c ∉ take i s.
Proof.
  revert i. induction s as [|x s IH]; intros i; cbn [IndexByte]; [done|].
  destruct (Ascii.eqb_spec x c) as [->|Hne].
  - intros [= <-]. split; [simpl; lia|]. cbn. apply not_elem_of_nil.
  - destruct (IndexByte s c) as [j|] eqn:Ej; [|done].
    intros [= <-]. destruct (IH j eq_refl) as [Hlt Hnin].
    split; [simpl; lia|]. cbn. intros [?|?]%elem_of_cons; [congruence|done].
Qed.

Lemma LastIndexByte_Some (s : bytes) c i :
  LastIndexByte s c = Some i → c ∉ drop (i + 1) s.
Proof.
  unfold LastIndexByte.
  destruct (IndexByte (reverse s) c) as [j|] eqn:Ej; [|done].
  intros [= <-]. apply IndexByte_Some in Ej as [Hlt Hnin].
  rewrite length_reverse in Hlt. rewrite take_reverse in Hnin.
  replace (length s - 1 - j + 1) with (length s - j) by lia.
  intros Hin. apply Hnin. by apply elem_of_reverse.
Qed.

(** The port that names a connection holds no delimiter. *)
Lemma SplitHostPort_port hostport host port :
  SplitHostPort hostport = inl (host, port) → ":"%char ∉ port.
Proof.
  unfold SplitHostPort, addrErr.
  destruct (LastIndexByte hostport ":") as [i|] eqn:Ei; [|done].
  apply LastIndexByte_Some in Ei.
  repeat (case_match; try done); by intros [= _ <-].
Qed.

(** The receive events of the bridge are within the domain of the codec:
    the tag is [r], the identifier is a port, the payload is trimmed. *)
Lemma receive_event_roundtrips hostport host port data :
  SplitHostPort hostport = inl (host, port) →
  roundtrips prefixReceive port (TrimSpace data).
Proof.
  intros Hport%SplitHostPort_port. split.
  - rewrite decode_Sprintf3.
    + rewrite TrimRightSpace_id by apply TrimSpace_endsSpace. done.
    + cbn. intros [?|?%elem_of_nil]%elem_of_cons; done.
  - cbn [String.list_ascii_of_string app]. change delim with [":"%char].
    by rewrite SplitN_2_app.
Qed.

(** * More on the Acceptor *)

Lemma acceptBody_accepted conn host port w l w' :
  SplitHostPort (RemoteAddr conn) = inl (host, port) →
  acceptBody (inl conn) w = (l, w') →
  connMap w' = <[port := conn]> (connMap w)
  ∧ listener w' = listener w ∧ connEnv w' = connEnv w
  ∧ ∃ D,
      trace w' = trace w ++ D ++ (if l is Continue then [Go port conn] else [])
      ∧ Forall isOutWrite D
      ∧ (l = Continue → written D = encode (Connect port))
      ∧ (∀ r, l = Return r → is_Some r).
Proof.
  intros Hsplit. unfold acceptBody. rewrite Hsplit. run_M.
  set (w0 := mkWorld (<[port := conn]> (connMap w)) (listener w) (outEnv w) (connEnv w)
               (trace w)).
  destruct (WriteString NewWriter _ w0) as [[[nn r1] b1] w1] eqn:EW.
  apply WriteString_spec in EW as ((Hm1 & Hl1 & Hc1) & D1 & Ht1 & Ho1 & Hr1 & Hok1 & _).
  subst w0. cbn in Hm1, Hl1, Hc1, Ht1.
  destruct r1 as [e1|].
  { intros [= <- <-]. split_and!; [done..|].
    exists D1. rewrite app_nil_r. split_and!; try done. intros r [= <-]. eauto. }
  destruct (Flush b1 w1) as [[r2 b2] w2] eqn:EF.
  apply Flush_spec in EF as ((Hm2 & Hl2 & Hc2) & D2 & Ht2 & Ho2 & Hr2 & Hok2 & _).
  destruct r2 as [e2|]; intros [= <- <-].
  - split_and!; [congruence..|].
    exists (D1 ++ D2). rewrite app_nil_r. split_and!; try done.
    + by rewrite Ht2, Ht1, (assoc_L (++)).
    + by apply Forall_app.
    + intros r [= <-]. eauto.
  - cbn. split_and!; [congruence..|].
    exists (D1 ++ D2). split_and!; try done.
    + by rewrite Ht2, Ht1, !(assoc_L (++)).
    + by apply Forall_app.
    + intros _. destruct (Hok1 eq_refl) as [_ Hw1].
      destruct (Hok2 eq_refl) as (_ & Hw2 & _).
      by rewrite written_app, Hw2, Hw1.
Qed.

(** X4: the Acceptor registers before it notifies.  For an accepted
    connection whose remote address splits, whatever the output stream
    does, the pass through the loop leaves the connection in the registry
    under its port; it writes nothing but the connect event, starts the
    handler last and only when the event was written whole, and otherwise
    returns an error with the connection still registered, not closed and
    with no handler to serve it. *)
Theorem accept_registers_before_notifying conn host port w :
  SplitHostPort (RemoteAddr conn) = inl (host, port) →
  let l := (acceptBody (inl conn) w).1 in
  let w' := (acceptBody (inl conn) w).2 in
  connMap w' !! port = Some conn
  ∧ (∀ p, p ≠ port → connMap w' !! p = connMap w !! p)
  ∧ ∃ D,
      trace w' = trace w ++ D ++ (if l is Continue then [Go port conn] else [])
      ∧ Forall isOutWrite D
      ∧ (l = Continue → written D = encode (Connect port))
      ∧ (∀ r, l = Return r → is_Some r).
Proof.
  intros Hsplit l w'.
  destruct (acceptBody_accepted conn host port w l w' Hsplit) as (Hm & _ & _ & HD).
  { subst l w'. by destruct (acceptBody (inl conn) w). }
  split_and!; [|intros p Hp|done].
  - rewrite Hm. apply lookup_insert_eq.
  - rewrite Hm. by apply lookup_insert_ne.
Qed.

Lemma accept_registers_before_notifying_witness :
  let c := mkConn 7 "127.0.0.1:5000" in
  let w := mkWorld ∅ (Some (mkListener "127.0.0.1:40000"))
             [WPart 3 (Some ErrClosedPipe)] [] [] in
  (acceptBody (inl c) w).1
  = Return (Some (Errorf "failed to flush: %w" [] ErrClosedPipe))
  ∧ connMap (acceptBody (inl c) w).2 !! ("5000" : bytes) = Some c
  ∧ started (trace (acceptBody (inl c) w).2) = [].
Proof.
  intros c w. split_and!.
  - vm_compute. reflexivity.
  - apply (accept_registers_before_notifying c "127.0.0.1" "5000" w). vm_compute. reflexivity.
  - vm_compute. reflexivity.
Defined.

Lemma started_app tr1 tr2 : started (tr1 ++ tr2) = started tr1 ++ started tr2.
Proof. induction tr1 as [|[] tr1 IH]; cbn; by rewrite ?IH. Qed.

Lemma started_onlyOut D : Forall isOutWrite D → started D = [].
Proof. induction 1 as [|[] D H _ IH]; cbn; done. Qed.

Lemma isOutWrite_orGo D : Forall isOutWrite D → Forall isOutWriteOrGo D.
Proof. intros H. eapply Forall_impl; [exact H|]. by intros []. Qed.

Lemma acceptBody_frame ar w l w' :
  acceptBody ar w = (l, w') →
  listener w' = listener w ∧ connEnv w' = connEnv w
  ∧ (∀ p, is_Some (connMap w !! p) → is_Some (connMap w' !! p))
  ∧ ∃ D, trace w' = trace w ++ D ∧ Forall isOutWriteOrGo D
         ∧ ∀ p c, (p, c) ∈ started D → connMap w' !! p = Some c.
Proof.
  destruct ar as [conn|err].
  - destruct (SplitHostPort (RemoteAddr conn)) as [[host port]|e] eqn:Hsplit.
    + intros (Hm & Hl & Hc & D & Ht & Ho & _)%(acceptBody_accepted _ host port); [|done].
      split_and!; [done..| |].
      * intros p Hp. rewrite Hm. destruct (decide (port = p)) as [->|];
          [rewrite lookup_insert_eq; eauto|by rewrite lookup_insert_ne].
      * eexists. split; [exact Ht|]. split.
        -- apply Forall_app. split; [by apply isOutWrite_orGo|]. by destruct l; repeat constructor.
        -- intros p c. rewrite started_app, (started_onlyOut D), app_nil_l by done.
           destruct l; cbn; [|by intros ?%elem_of_nil].
           intros [[= -> ->]|?%elem_of_nil]%elem_of_cons; [|done].
           rewrite Hm. apply lookup_insert_eq.
    + unfold acceptBody. rewrite Hsplit. run_M. intros [= <- <-].
      split_and!; [done..|]. exists []. rewrite app_nil_r.
      split_and!; [done|constructor|]. by intros p c ?%elem_of_nil.
  - unfold acceptBody. run_M.
    destruct (asNetError err) as [[]|]; intros [= <- <-];
      (split_and!; [done..|]); exists []; rewrite app_nil_r;
      (split_and!; [done|constructor|]); by intros p c ?%elem_of_nil.
Qed.

(** X5: what the Acceptor never does.  Whatever it is given to accept and
    however the output stream behaves, [handleAccept] adds nothing to the
    log, closes no connection and writes to no peer: all it does is write
    on the output stream and start handlers.  It never removes an
    identifier from the registry, never touches the listener, and every
    handler it has started is for an identifier that is registered. *)
Theorem acceptor_only_registers accepts w :
  let w' := (handleAccept accepts w).2 in
  listener w' = listener w ∧ connEnv w' = connEnv w
  ∧ (∀ p, is_Some (connMap w !! p) → is_Some (connMap w' !! p))
  ∧ ∃ D, trace w' = trace w ++ D ∧ Forall isOutWriteOrGo D
         ∧ ∀ p c, (p, c) ∈ started D → is_Some (connMap w' !! p).
Proof.
  intros w'. subst w'. unfold handleAccept. run_M.
  destruct (listener w) as [l|] eqn:El; cycle 1.
  { cbn. rewrite El. split_and!; [done..|]. exists []. rewrite app_nil_r.
    split_and!; [done|constructor|]. by intros p c ?%elem_of_nil. }
  rewrite <- El. clear l El. revert w.
  induction accepts as [|ar accepts IH]; intros w; cbn [acceptLoop].
  { run_M. cbn. split_and!; [done..|]. exists []. rewrite app_nil_r.
    split_and!; [done|constructor|]. by intros p c ?%elem_of_nil. }
  run_M. destruct (acceptBody ar w) as [l w1] eqn:EB.
  apply acceptBody_frame in EB as (Hl1 & Hc1 & Hmono1 & D1 & Ht1 & Ho1 & Hst1).
  destruct l as [|r].
  - destruct (IH w1) as (Hl2 & Hc2 & Hmono2 & D2 & Ht2 & Ho2 & Hst2).
    split_and!; [congruence|congruence|auto|].
    exists (D1 ++ D2). split_and!.
    + by rewrite Ht2, Ht1, (assoc_L (++)).
    + by apply Forall_app.
    + intros p c. rewrite started_app. intros [Hin|Hin]%elem_of_app.
      * apply Hmono2. rewrite (Hst1 _ _ Hin). eauto.
      * by eapply Hst2.
  - cbn. split_and!; [done..|]. exists D1. split_and!; [done..|].
    intros p c Hin. rewrite (Hst1 _ _ Hin). eauto.
Qed.

Lemma acceptLoop_reliable conns ports w :
  Forall2 (λ c p, ∃ h, SplitHostPort (RemoteAddr c) = inl (h, p)) conns ports →
  reliable w →
  ∃ w' D,
    acceptLoop (inl <$> conns) w = (Blocked, w')
    ∧ connMap w' = foldl (λ m pc, <[pc.1 := pc.2]> m) (connMap w) (zip ports conns)
    ∧ trace w' = trace w ++ D ∧ Forall isOutWriteOrGo D
    ∧ written D = concat (encode ∘ Connect <$> ports)
    ∧ started D = zip ports conns
    ∧ reliable w'.
Proof.
  intros Hall. revert w. induction Hall as [|c p conns ports [h Hsplit] _ IH]; intros w Hrel.
  { exists w, []. rewrite app_nil_r. split_and!; try done. }
  destruct (acceptBody_reliable c h p w Hsplit Hrel)
    as (w1 & D1 & HB & Hm1 & Ht1 & Ho1 & Hw1 & Hrel1).
  destruct (IH w1 Hrel1) as (w2 & D2 & HL & Hm2 & Ht2 & Ho2 & Hw2 & Hs2 & Hrel2).
  exists w2, ((D1 ++ [Go p c]) ++ D2). split_and!; try done.
  - cbn [fmap list_fmap acceptLoop]. run_M. by rewrite HB.
  - cbn. by rewrite Hm2, Hm1.
  - by rewrite Ht2, Ht1, !(assoc_L (++)).
  - rewrite !Forall_app. split_and!; [by apply isOutWrite_orGo|by repeat constructor|done].
  - rewrite !written_app, Hw1, Hw2. cbn. by rewrite app_nil_r.
  - rewrite !started_app, (started_onlyOut D1), Hs2 by done. done.
Qed.

(** X6: connections accepted one after the other, on an output stream that
    takes every write: the Acceptor stays in its loop, the registry holds
    each port with its connection (a later connection with the same port
    replacing an earlier one), the output stream has received the connect
    events, one per connection in the order of acceptance, and one handler
    was started per connection, in the same order. *)
Theorem accept_in_order l conns ports w :
  listener w = Some l →
  Forall2 (λ c p, ∃ h, SplitHostPort (RemoteAddr c) = inl (h, p)) conns ports →
  reliable w →
  ∃ w' D,
    handleAccept (inl <$> conns) w = (Blocked, w')
    ∧ connMap w' = foldl (λ m pc, <[pc.1 := pc.2]> m) (connMap w) (zip ports conns)
    ∧ trace w' = trace w ++ D ∧ Forall isOutWriteOrGo D
    ∧ written D = concat (encode ∘ Connect <$> ports)
    ∧ started D = zip ports conns.
Proof.
  intros Hl Hall Hrel. rewrite (handleAccept_listening l) by done.
  destruct (acceptLoop_reliable conns ports w Hall Hrel)
    as (w' & D & HL & Hm & Ht & Ho & Hw & Hs & _).
  by exists w', D.
Qed.

Lemma accept_in_order_witness :
  let c1 := mkConn 7 "127.0.0.1:5000" in
  let c2 := mkConn 8 "[::1]:5001" in
  let w := mkWorld ∅ (Some (mkListener "127.0.0.1:40000")) [] [] [] in
  ∃ w' D,
    handleAccept (inl <$> [c1; c2]) w = (Blocked, w')
    ∧ connMap w'
      = foldl (λ m pc, <[pc.1 := pc.2]> m) (connMap w) (zip ["5000" : bytes; "5001" : bytes] [c1; c2])
    ∧ trace w' = trace w ++ D ∧ Forall isOutWriteOrGo D
    ∧ written D = concat (encode ∘ Connect <$> ["5000" : bytes; "5001" : bytes])
    ∧ started D = zip ["5000" : bytes; "5001" : bytes] [c1; c2].
Proof.
  intros c1 c2 w.
  apply (accept_in_order (mkListener "127.0.0.1:40000") [c1; c2] ["5000" : bytes; "5001" : bytes] w).
  - reflexivity.
  - repeat constructor.
    + by exists ("127.0.0.1" : bytes).
    + by exists ("::1" : bytes).
  - constructor.
Defined.

(** * More on the Ingress loop *)

Lemma incomingBody_to id expr w :
  ":"%char ∉ id →
  incomingBody (id ++ ":" ++ expr ++ [LF], None) w
  = match connMap w !! TrimLeftSpace id with
    | None =>
        (Continue,
         mkWorld (connMap w) (listener w) (outEnv w) (connEnv w)
           (trace w ++ [Log "warn: no connection exists for %s" [AStr (TrimLeftSpace id)]]))
    | Some conn =>
        (err ← connWrite conn (TrimRightSpace expr);
         match err with
         | Some err =>
             logPrintf "warn: failed to write data %s to %s: %s"
                       [AStr (TrimRightSpace expr); AStr (TrimLeftSpace id); AErr err];;
             mret Continue
         | None => mret Continue
         end) w
    end.
Proof.
  intros Hid. apply incomingBody_split.
  - cbn [String.list_ascii_of_string app]. apply TrimSpace_line.
  - intros Hin. apply Hid. destruct (TrimLeftSpace_suffix id) as [k Hk].
    rewrite Hk. apply elem_of_app. by right.
Qed.

(** X7: two live connections with the same remote port (peers on
    different hosts) share one identifier.  Accepted one after the other
    on an output stream that takes every write, the second replaces the
    first in the registry, so commands for the identifier reach the second
    only; and when the handler of the first ends, it removes the entry of
    the second: a later command for the identifier is dropped with a
    warning although the second connection was never closed. *)
Theorem identifier_collision c1 c2 h1 h2 port w :
  SplitHostPort (RemoteAddr c1) = inl (h1, port) →
  SplitHostPort (RemoteAddr c2) = inl (h2, port) →
  c1 ≠ c2 →
  startsSpace port = false →
  reliable w →
  ∃ w2,
    acceptLoop [inl c1; inl c2] w = (Blocked, w2)
    ∧ connMap w2 !! port = Some c2
    ∧ started (drop (length (trace w)) (trace w2)) = [(port, c1); (port, c2)]
    ∧ (∀ expr, sent (drop (length (trace w2))
                      (trace (incomingBody (port ++ ":" ++ expr ++ [LF], None) w2).2))
               = [(c2, TrimRightSpace expr)])
    ∧ ∀ lines data e rest,
        ∃ r w3,
          handleOutgoing port c1 (((λ d, (d, None)) <$> lines) ++ (data, Some e) :: rest) w2
          = (Returned r, w3)
          ∧ connMap w3 !! port = None
          ∧ (ConnClose c2 ∉ drop (length (trace w)) (trace w3))
          ∧ ∀ expr,
              (incomingBody (port ++ ":" ++ expr ++ [LF], None) w3).1 = Continue
              ∧ trace (incomingBody (port ++ ":" ++ expr ++ [LF], None) w3).2
                = trace w3 ++ [Log "warn: no connection exists for %s" [AStr port]].
Proof.
  intros H1 H2 Hne Hsp Hrel.
  pose proof (SplitHostPort_port _ _ _ H1) as Hcolon.
  pose proof (TrimLeftSpace_id _ Hsp) as Htrim.
  destruct (acceptLoop_reliable [c1; c2] [port; port] w)
    as (w2 & D & HL & Hm & Ht & Ho & Hw & Hs & Hrel2); [|done|].
  { repeat constructor; eauto. }
  assert (Hc2 : connMap w2 !! port = Some c2).
  { rewrite Hm. cbn. apply lookup_insert_eq. }
  exists w2. split_and!; [done|done| | |].
  - by rewrite Ht, drop_app_length.
  - intros expr. rewrite incomingBody_to, Htrim, Hc2 by done.
    run_M. destruct (connEnv w2) as [|[err|] env]; cbn;
      rewrite <- ?(assoc_L (++)), drop_app_length; done.
  - intros lines data e rest.
    destruct (handleOutgoing_reliable port c1 lines data e rest w2 Hrel2)
      as (r & w3 & D3 & HO & Hm3 & Ht3 & Ho3 & _).
    exists r, w3. split_and!; [done| | |].
    + rewrite Hm3. apply lookup_delete_eq.
    + rewrite Ht3, Ht, <- !(assoc_L (++)), drop_app_length.
      rewrite !elem_of_app, list_elem_of_singleton.
      intros [Hin|[Hin|Heq]].
      * rewrite Forall_forall in Ho. by apply Ho in Hin.
      * rewrite Forall_forall in Ho3. by apply Ho3 in Hin.
      * by injection Heq as ->.
    + intros expr. rewrite incomingBody_to, Htrim by done.
      rewrite Hm3, lookup_delete_eq. done.
Qed.

Lemma identifier_collision_witness :
  let c1 := mkConn 7 "10.0.0.1:5000" in
  let c2 := mkConn 8 "10.0.0.2:5000" in
  let w := mkWorld ∅ (Some (mkListener "0.0.0.0:40000")) [] [] [] in
  ∃ w2,
    acceptLoop [inl c1; inl c2] w = (Blocked, w2)
    ∧ connMap w2 !! ("5000" : bytes) = Some c2
    ∧ ∃ r w3,
        handleOutgoing "5000" c1 [([], Some EOF)] w2 = (Returned r, w3)
        ∧ connMap w3 !! ("5000" : bytes) = None
        ∧ trace (incomingBody ("5000" ++ ":" ++ "hello" ++ [LF], None) w3).2
          = trace w3 ++ [Log "warn: no connection exists for %s" [AStr "5000"]].
Proof.
  intros c1 c2 w.
  destruct (identifier_collision c1 c2 "10.0.0.1" "10.0.0.2" "5000" w)
    as (w2 & HL & Hc2 & _ & _ & Hend);
    [reflexivity|reflexivity|discriminate|reflexivity|constructor|].
  exists w2. split_and!; [done..|].
  destruct (Hend [] [] EOF []) as (r & w3 & HO & Hnone & _ & Hcmd).
  exists r, w3. split_and!; [done..|]. apply Hcmd.
Defined.

Lemma incomingBody_frame rd w l w' :
  incomingBody rd w = (l, w') →
  connMap w' = connMap w ∧ listener w' = listener w ∧ outEnv w' = outEnv w
  ∧ ∃ D, trace w' = trace w ++ D ∧ Forall isConnWriteOrLog D.
Proof.
  unfold incomingBody. destruct rd as [data [e|]].
  { destruct (isEOF e || isErrClosedPipe e); run_M; intros [= <- <-];
      (split_and!; [done..|]); exists []; by rewrite app_nil_r. }
  destruct (negb _).
  { run_M. intros [= <- <-]. split_and!; [done..|]. eexists [_]. by repeat constructor. }
  run_M. destruct (connMap w !! _) as [conn|].
  - destruct (connEnv w) as [|[err|] env]; intros [= <- <-]; cbn;
      (split_and!; [done..|]).
    + eexists [_]. by repeat constructor.
    + eexists [_; _]. rewrite <- (assoc_L (++)). by repeat constructor.
    + eexists [_]. by repeat constructor.
  - intros [= <- <-]. split_and!; [done..|]. eexists [_]. by repeat constructor.
Qed.

Lemma written_ConnWriteOrLog D : Forall isConnWriteOrLog D → written D = [].
Proof. induction 1 as [|[] D H _ IH]; cbn; done. Qed.

(** X8: what the Ingress loop never does.  Whatever it reads and however
    the peers' sockets behave, [handleIncoming] changes neither the
    registry nor the listener, writes nothing on the output stream (a
    command that cannot be delivered leaves a trace in the log only),
    closes no connection and starts no handler: all it does is write to
    peers and log. *)
Theorem ingress_only_forwards input w :
  let w' := (handleIncoming input w).2 in
  connMap w' = connMap w ∧ listener w' = listener w ∧ outEnv w' = outEnv w
  ∧ written (trace w') = written (trace w)
  ∧ ∃ D, trace w' = trace w ++ D ∧ Forall isConnWriteOrLog D.
Proof.
  cbn zeta.
  assert (H : connMap (handleIncoming input w).2 = connMap w
              ∧ listener (handleIncoming input w).2 = listener w
              ∧ outEnv (handleIncoming input w).2 = outEnv w
              ∧ ∃ D, trace (handleIncoming input w).2 = trace w ++ D
                     ∧ Forall isConnWriteOrLog D).
  { revert w. induction input as [|rd input IH]; intros w; cbn [handleIncoming].
    { cbn. split_and!; [done..|]. exists []. by rewrite app_nil_r. }
    run_M. destruct (incomingBody rd w) as [l w1] eqn:EB.
    apply incomingBody_frame in EB as (Hm1 & Hl1 & He1 & D1 & Ht1 & Ho1).
    destruct l as [|r]; [|cbn; split_and!; [done..|]; by exists D1].
    destruct (IH w1) as (Hm2 & Hl2 & He2 & D2 & Ht2 & Ho2).
    split_and!; [congruence..|].
    exists (D1 ++ D2). split; [by rewrite Ht2, Ht1, (assoc_L (++))|by apply Forall_app]. }
  destruct H as (Hm & Hl & He & D & Ht & Ho). split_and!; [done..| |by exists D].
  by rewrite Ht, written_app, (written_ConnWriteOrLog D), app_nil_r.
Qed.

Lemma handleIncoming_app xs ys w :
  handleIncoming (xs ++ ys) w
  = match handleIncoming xs w with
    | (Blocked, w') => handleIncoming ys w'
    | r => r
    end.
Proof.
  revert w. induction xs as [|rd xs IH]; intros w; [done|].
  cbn [app handleIncoming]. run_M.
  destruct (incomingBody rd w) as [[|r] w1]; [apply IH|done].
Qed.

(** X9: a read that ends in an error delivers nothing.  The bytes that
    [ReadString] returns together with an error (a last line without its
    newline, at the end of the input stream) are not forwarded, and no
    later read is made: the world is as the reads before had left it. *)
Theorem ingress_drops_unterminated_line pre data e rest w :
  (handleIncoming (pre ++ (data, Some e) :: rest) w).2 = (handleIncoming pre w).2
  ∧ (∀ w', handleIncoming pre w = (Blocked, w') →
           ∃ r, handleIncoming (pre ++ (data, Some e) :: rest) w = (Returned r, w')).
Proof.
  rewrite handleIncoming_app.
  destruct (handleIncoming pre w) as [[|r] w1] eqn:Hpre.
  - cbn [handleIncoming incomingBody]. run_M.
    split.
    + by destruct (isEOF e || isErrClosedPipe e).
    + intros w' [= <-]. destruct (isEOF e || isErrClosedPipe e); by eexists.
  - split; [done|]. by intros w' [=].
Qed.

Lemma ingress_drops_unterminated_line_witness :
  let c := mkConn 7 "127.0.0.1:5000" in
  let w := mkWorld {[ ("5000" : bytes) := c ]} None [] [] [] in
  ∃ r w',
    handleIncoming [("5000:hello" ++ [LF], None); ("5000:bye" : bytes, Some EOF)] w
    = (Returned r, w')
    ∧ sent (trace w') = [(c, "hello" : bytes)].
Proof.
  intros c w.
  destruct (ingress_drops_unterminated_line [("5000:hello" ++ [LF], None)] "5000:bye" EOF []
              w) as [_ H].
  destruct (H (handleIncoming [("5000:hello" ++ [LF], None)] w).2) as [r Hr].
  { vm_compute. reflexivity. }
  eexists r, _. split; [exact Hr|]. vm_compute. reflexivity.
Defined.

Lemma sent_app tr1 tr2 : sent (tr1 ++ tr2) = sent tr1 ++ sent tr2.
Proof. induction tr1 as [|[] tr1 IH]; cbn; by rewrite ?IH. Qed.

(** X10: commands are delivered in order, one [Write] each.  For a run of
    commands [id:expr] whose identifiers (without delimiter) are
    registered, read while the peers' sockets take every write, the loop
    stays in place and has made exactly one write per command, in the
    order read, each on the socket registered under the identifier and
    with the bytes of [expr] without trailing white space; nothing is
    logged. *)
Theorem ingress_delivers_in_order (cmds : list (bytes * bytes * Conn)) w :
  Forall (λ '(id, expr, conn),
            (":"%char ∉ id) ∧ connMap w !! TrimLeftSpace id = Some conn) cmds →
  Forall (eq None) (connEnv w) →
  ∃ w',
    handleIncoming ((λ '(id, expr, _), (id ++ ":" ++ expr ++ [LF], None)) <$> cmds) w
    = (Blocked, w')
    ∧ trace w' = trace w
        ++ ((λ '(id, expr, conn), ConnWrite conn (TrimRightSpace expr) None) <$> cmds)
    ∧ sent (drop (length (trace w)) (trace w'))
      = (λ '(id, expr, conn), (conn, TrimRightSpace expr)) <$> cmds
    ∧ logged (trace w') = logged (trace w).
Proof.
  intros Hcmds. revert w Hcmds.
  induction cmds as [|[[id expr] conn] cmds IH]; intros w Hcmds Henv.
  { exists w. cbn. rewrite app_nil_r, drop_all. done. }
  apply Forall_cons in Hcmds as [[Hid Hconn] Hcmds].
  set (w1 := mkWorld (connMap w) (listener w) (outEnv w) (tail (connEnv w))
               (trace w ++ [ConnWrite conn (TrimRightSpace expr) None])).
  assert (HB : incomingBody (id ++ ":" ++ expr ++ [LF], None) w = (Continue, w1)).
  { rewrite incomingBody_to, Hconn by done. run_M. subst w1.
    destruct (connEnv w) as [|o env]; [done|].
    apply Forall_cons in Henv as [<- _]. done. }
  destruct (IH w1) as (w' & HL & Ht & Hs & Hlog).
  { done. }
  { subst w1. cbn. destruct (connEnv w); [done|]. by apply Forall_cons in Henv as [_ ?]. }
  exists w'. split_and!.
  - cbn [fmap list_fmap handleIncoming]. run_M. by rewrite HB.
  - rewrite Ht. subst w1. cbn. by rewrite <- (assoc_L (++)).
  - rewrite Ht. subst w1. cbn [trace]. rewrite <- (assoc_L (++)), drop_app_length.
    cbn. f_equal. rewrite Ht in Hs. cbn [trace] in Hs.
    rewrite drop_app_length in Hs. done.
  - rewrite Hlog. subst w1. cbn. by rewrite logged_app, app_nil_r.
Qed.

Lemma ingress_delivers_in_order_witness :
  let c1 := mkConn 7 "127.0.0.1:5000" in
  let c2 := mkConn 8 "127.0.0.1:5001" in
  let w := mkWorld {[ ("5000" : bytes) := c1; ("5001" : bytes) := c2 ]} None [] [] [] in
  let cmds : list (bytes * bytes * Conn) :=
    [("5001" : bytes, "one" : bytes, c2); ("5000" : bytes, "two:2 " : bytes, c1);
     ("5001" : bytes, "three" : bytes, c2)] in
  ∃ w',
    handleIncoming ((λ '(id, expr, _), (id ++ ":" ++ expr ++ [LF], None)) <$> cmds) w
    = (Blocked, w')
    ∧ trace w' = trace w
        ++ ((λ '(id, expr, conn), ConnWrite conn (TrimRightSpace expr) None) <$> cmds)
    ∧ sent (drop (length (trace w)) (trace w'))
      = (λ '(id, expr, conn), (conn, TrimRightSpace expr)) <$> cmds
    ∧ logged (trace w') = logged (trace w).
Proof.
  intros c1 c2 w cmds. apply (ingress_delivers_in_order cmds w).
  - assert (Hnin : ∀ s : bytes, bool_decide (":"%char ∈ s) = false → ":"%char ∉ s).
    { intros s. apply bool_decide_eq_false_1. }
    repeat constructor; try (by apply Hnin); vm_compute; reflexivity.
  - constructor.
Defined.

Lemma SplitN_2_inv c (s a b : bytes) :
  SplitN s [c] 2 = [a; b] → s = a ++ c :: b ∧ c ∉ a.
Proof.
  destruct (decide (c ∈ s)) as [Hin|Hnin].
  - apply elem_of_split_first in Hin as (a' & b' & -> & Ha).
    rewrite SplitN_2_app by done. by intros [= <- <-].
  - by rewrite SplitN_2_None.
Qed.

(** X11: what a decoded command is made of.  A line decodes into one field
    (the trimmed line, when it holds no delimiter) or two.  With two, the
    identifier and the payload joined by one delimiter give back the
    trimmed line, so everything after the first delimiter, further
    delimiters included, is payload; the identifier holds no delimiter and
    does not begin with white space, and the payload does not end with
    white space. *)
Theorem decode_fields data :
  (length (decode data) = 1 ∨ length (decode data) = 2)
  ∧ (length (decode data) = 2 ↔ ":"%char ∈ TrimSpace data)
  ∧ ((":"%char ∉ TrimSpace data) → decode data = [TrimSpace data])
  ∧ ∀ id expr,
      decode data = [id; expr] →
      TrimSpace data = id ++ ":" ++ expr
      ∧ (":"%char ∉ id)
      ∧ startsSpace id = false ∧ endsSpace expr = false.
Proof.
  unfold decode. change delim with [":"%char]. split_and!.
  - destruct (decide (":"%char ∈ TrimSpace data)) as [Hin|Hnin].
    + right. by apply SplitN_2_length.
    + left. by rewrite SplitN_2_None.
  - apply SplitN_2_length.
  - apply SplitN_2_None.
  - intros id expr [Ht Hid]%SplitN_2_inv. split_and!; [done|done| |].
    + destruct (startsSpace id) eqn:E; [|done].
      apply (runeAt_prefix _ _ _ _ (TrimSpace data)) in E; [|rewrite Ht; by eexists].
      fold (startsSpace (TrimSpace data)) in E. by rewrite TrimSpace_startsSpace in E.
    + destruct (endsSpace expr) eqn:E; [|done]. unfold endsSpace in E.
      apply (runeAt_prefix _ _ _ _ (reverse (TrimSpace data))) in E.
      * fold (endsSpace (TrimSpace data)) in E. by rewrite TrimSpace_endsSpace in E.
      * rewrite Ht, reverse_app, reverse_cons, <- (assoc_L (++)). by eexists.
Qed.

Lemma decode_fields_witness :
  TrimSpace ("  5000:GET /a:b  " ++ [CR; LF]) = "5000" ++ ":" ++ "GET /a:b"
  ∧ (":"%char ∉ ("5000" : bytes)).
Proof.
  destruct (decode_fields ("  5000:GET /a:b  " ++ [CR; LF])) as (_ & _ & _ & H).
  destruct (H "5000" "GET /a:b") as (Ht & Hid & _); [vm_compute; reflexivity|].
  by split.
Defined.

(** * More on the Egress handler *)

Lemma handleOutgoing_outcome port conn input w :
  (handleOutgoing port conn input w).1 = (outgoingLoop port conn NewWriter input w).1.1.
Proof.
  unfold handleOutgoing. run_M.
  destruct (outgoingLoop port conn NewWriter input w) as [[[|r] b] w1]; [done|].
  by destruct (outgoingDeferred port conn b w1).
Qed.

Lemma outgoingLoop_outcome port conn input b w :
  match (outgoingLoop port conn b input w).1.1 with
  | Blocked => Forall (λ rd, rd.2 = None) input
  | Returned r =>
      (∃ pre data e rest,
         input = pre ++ (data, Some e) :: rest ∧ Forall (λ rd, rd.2 = None) pre
         ∧ r = if isEOF e || isErrClosedPipe e then None
               else Some (Errorf "error: failed to read outgoing data: %w" [] e))
      ∨ (∃ e, r = Some (Errorf "error: failed to flush: %w" [] e))
  end.
Proof.
  revert b w. induction input as [|[data oe] input IH]; intros b w; cbn [outgoingLoop].
  { cbn. constructor. }
  run_M. destruct oe as [e|].
  - cbn [outgoingBody]. run_M.
    assert (Hcase : ∀ r, r = (if isEOF e || isErrClosedPipe e then None
                              else Some (Errorf "error: failed to read outgoing data: %w" [] e)) →
              (∃ pre data' e' rest,
                 (data, Some e) :: input = pre ++ (data', Some e') :: rest
                 ∧ Forall (λ rd, rd.2 = None) pre
                 ∧ r = if isEOF e' || isErrClosedPipe e' then None
                       else Some (Errorf "error: failed to read outgoing data: %w" [] e'))
              ∨ (∃ e', r = Some (Errorf "error: failed to flush: %w" [] e'))).
    { intros r ->. left. by exists [], data, e, input. }
    destruct (isEOF e || isErrClosedPipe e); cbn; by apply Hcase.
  - cbn [outgoingBody]. run_M.
    destruct (WriteString b _ w) as [[[nn r1] b1] w1].
    destruct r1 as [e1|].
    + specialize (IH b1 (mkWorld (connMap w1) (listener w1) (outEnv w1) (connEnv w1)
                    (trace w1 ++ [Log "warn: failed to write data %s from %s: %s"
                                      [AStr data; AConn conn; AErr e1]]))).
      destruct (outgoingLoop port conn b1 input _) as [[[|r] b2] w2]; cbn in *.
      * by constructor.
      * destruct IH as [(pre & d & e & rest & -> & Hpre & ->)|[e ->]]; [left|right; eauto].
        exists ((data, None) :: pre), d, e, rest. split_and!; [done| |done].
        by constructor.
    + destruct (Flush b1 w1) as [[[e2|] b2] w2]; [cbn; right; eauto|].
      specialize (IH b2 w2).
      destruct (outgoingLoop port conn b2 input w2) as [[[|r] b3] w3]; cbn in *.
      * by constructor.
      * destruct IH as [(pre & d & e & rest & -> & Hpre & ->)|[e ->]]; [left|right; eauto].
        exists ((data, None) :: pre), d, e, rest. split_and!; [done| |done].
        by constructor.
Qed.

(** X12: how an Egress handler can end.  While every read succeeds the
    handler stays in its loop, unless a flush fails.  When it returns, it
    returns [nil] (the first failed read was [io.EOF] or
    [io.ErrClosedPipe]), the wrapped error of the first failed read, or a
    wrapped flush error: never an error for a failed [WriteString], for a
    failed disconnect notification or for the close of the socket. *)
Theorem egress_outcome port conn input w :
  match (handleOutgoing port conn input w).1 with
  | Blocked => Forall (λ rd, rd.2 = None) input
  | Returned r =>
      (∃ pre data e rest,
         input = pre ++ (data, Some e) :: rest ∧ Forall (λ rd, rd.2 = None) pre
         ∧ r = if isEOF e || isErrClosedPipe e then None
               else Some (Errorf "error: failed to read outgoing data: %w" [] e))
      ∨ (∃ e, r = Some (Errorf "error: failed to flush: %w" [] e))
  end.
Proof. rewrite handleOutgoing_outcome. apply outgoingLoop_outcome. Qed.

(** X13: a handler whose peer is still there.  On an output stream that
    takes every write, after any number of lines read without error the
    handler is still in its loop: it has written one receive event per
    line, in order, and nothing else; no disconnect event is written, the
    socket is not closed and the registry is as it was. *)
Theorem egress_stays_while_reading port conn lines w :
  reliable w →
  ∃ w' D,
    handleOutgoing port conn ((λ d, (d, None)) <$> lines) w = (Blocked, w')
    ∧ connMap w' = connMap w
    ∧ trace w' = trace w ++ D ∧ Forall isOutWrite D
    ∧ written D = concat (encode <$> (Receive port ∘ TrimSpace <$> lines)).
Proof.
  intros Hrel.
  destruct (outgoingLoop_reliable port conn lines [] w Hrel)
    as (w' & D & HL & (Hm & _) & Ht & Ho & Hw & _).
  exists w', D. split_and!; try done.
  unfold handleOutgoing. run_M. rewrite app_nil_r in HL. by rewrite HL.
Qed.

Lemma egress_stays_while_reading_witness :
  let c := mkConn 7 "127.0.0.1:5000" in
  let w := mkWorld {[ ("5000" : bytes) := c ]} None [] [] [] in
  ∃ w' D,
    handleOutgoing "5000" c ((λ d, (d, None)) <$> ["one" ++ [LF]; [LF]; " two" ++ [CR; LF]]) w
    = (Blocked, w')
    ∧ connMap w' = connMap w
    ∧ trace w' = trace w ++ D ∧ Forall isOutWrite D
    ∧ written D
      = concat (encode <$> (Receive "5000" ∘ TrimSpace
                              <$> ["one" ++ [LF]; [LF]; " two" ++ [CR; LF]])).
Proof.
  intros c w.
  apply (egress_stays_while_reading "5000" c ["one" ++ [LF]; [LF]; " two" ++ [CR; LF]] w).
  constructor.
Defined.

Lemma WriteString_pending b e s w :
  err b = Some e → WriteString b s w = ((0, Some e, b), w).
Proof.
  intros Hb. unfold WriteString. cbn [Nat.add writeStringLoop].
  rewrite bool_decide_eq_true_2 by (rewrite Hb; eauto).
  rewrite andb_false_r. run_M. by rewrite Hb.
Qed.

Lemma Flush_pending b e w : err b = Some e → Flush b w = ((Some e, b), w).
Proof. intros Hb. unfold Flush. by rewrite Hb. Qed.

Lemma logged_isLog_written D : Forall isLog D → written D = [].
Proof. induction 1 as [|[] D H _ IH]; cbn; done. Qed.

Lemma outgoingLoop_pending port conn b e input w :
  err b = Some e →
  ∃ o w' D,
    outgoingLoop port conn b input w = ((o, b), w')
    ∧ connMap w' = connMap w ∧ outEnv w' = outEnv w
    ∧ trace w' = trace w ++ D ∧ Forall isLog D.
Proof.
  intros Hb. revert w. induction input as [|[data oe] input IH]; intros w.
  { exists Blocked, w, []. rewrite app_nil_r. by split_and!. }
  cbn [outgoingLoop outgoingBody]. run_M. destruct oe as [e'|].
  - destruct (isEOF e' || isErrClosedPipe e'); run_M;
      eexists _, w, []; rewrite app_nil_r; by split_and!.
  - rewrite (WriteString_pending b e) by done.
    set (w1 := mkWorld _ _ _ _ _).
    destruct (IH w1) as (o & w' & D & HL & Hm & He & Ht & Ho).
    exists o, w', (Log "warn: failed to write data %s from %s: %s"
                       [AStr data; AConn conn; AErr e] :: D).
    split_and!; [done..| |by constructor].
    rewrite Ht. subst w1. cbn. by rewrite <- (assoc_L (++)).
Qed.

(** X14: an error of the buffered writer sticks.  Once a [WriteString] of
    a handler has failed (the handler is at the head of its loop with the
    error pending), that handler makes no further write on the output
    stream, however the stream behaves from then on: every later line read
    is dropped with a warning, and when the handler ends no disconnect
    event is written; the failure to write it is logged, the identifier is
    removed and the socket closed. *)
Theorem egress_writer_error_sticks port conn pre rest w0 b e w :
  outgoingLoop port conn NewWriter pre w0 = ((Blocked, b), w) →
  err b = Some e →
  ∃ o w' D,
    handleOutgoing port conn (pre ++ rest) w0 = (o, w')
    ∧ written (trace w') = written (trace w)
    ∧ outEnv w' = outEnv w
    ∧ trace w' = trace w ++ D ++ (if o is Returned _ then [ConnClose conn] else [])
    ∧ Forall isLog D
    ∧ (∀ r, o = Returned r →
            connMap w' !! port = None
            ∧ (Log "warn: failed to write disconnection from %s: %s" [AConn conn; AErr e]
               ∈ D)).
Proof.
  intros Hpre Hb.
  destruct (outgoingLoop_pending port conn b e rest w Hb)
    as (o & w1 & D & HL & Hm & He & Ht & Ho).
  assert (Hloop : outgoingLoop port conn NewWriter (pre ++ rest) w0 = ((o, b), w1)).
  { by rewrite outgoingLoop_app, Hpre. }
  unfold handleOutgoing. run_M. rewrite Hloop. destruct o as [|r].
  - exists Blocked, w1, D. rewrite app_nil_r. split_and!; try done.
    by rewrite Ht, written_app, (logged_isLog_written D), app_nil_r.
  - unfold outgoingDeferred. run_M.
    rewrite (WriteString_pending b e) by done.
    rewrite (Flush_pending b e) by done.
    set (l1 := Log "warn: failed to write disconnection from %s: %s" [AConn conn; AErr e]).
    set (l2 := Log "error: failed to flush: %s" [AErr e]).
    eexists (Returned r), _, (D ++ [l1; l2]). split_and!; [reflexivity|..].
    + cbn. rewrite Ht, !written_app, (logged_isLog_written D) by done.
      cbn. by rewrite !app_nil_r.
    + done.
    + cbn. rewrite Ht. by repeat (progress cbn [app] || rewrite <- (assoc_L (++))).
    + apply Forall_app. split; [done|]. by repeat constructor.
    + intros r' _. split; [cbn; apply lookup_delete_eq|].
      apply elem_of_app. right. by left.
Qed.

Lemma egress_writer_error_sticks_witness :
  let c := mkConn 7 "127.0.0.1:5000" in
  let long : bytes := replicate 5000 "x"%char ++ [LF] in
  let w0 := New [WPart 0 (Some ErrClosedPipe)] [] in
  ∃ o w',
    handleOutgoing "5000" c ([(long, None)] ++ [("hello" ++ [LF], None); ([], Some EOF)]) w0
    = (o, w')
    ∧ written (trace w') = [] ∧ outEnv w' = [].
Proof.
  intros c long w0.
  destruct (egress_writer_error_sticks "5000" c [(long, None)]
              [("hello" ++ [LF], None); ([], Some EOF)] w0
              (outgoingLoop "5000" c NewWriter [(long, None)] w0).1.2 ErrClosedPipe
              (outgoingLoop "5000" c NewWriter [(long, None)] w0).2)
    as (o & w' & D & HO & Hw & He & _).
  - vm_compute. reflexivity.
  - vm_compute. reflexivity.
  - exists o, w'. split_and!; [exact HO| |].
    + rewrite Hw. vm_compute. reflexivity.
    + rewrite He. vm_compute. reflexivity.
Defined.

Lemma outgoingDeferred_frame port conn b w :
  ∃ w' D,
    outgoingDeferred port conn b w = (tt, w')
    ∧ connMap w' = delete port (connMap w)
    ∧ listener w' = listener w ∧ connEnv w' = connEnv w
    ∧ trace w' = trace w ++ D ++ [ConnClose conn] ∧ Forall isOutWriteOrLog D.
Proof.
  unfold outgoingDeferred. run_M.
  destruct (WriteString b _ w) as [[[nn r1] b1] w1] eqn:EW.
  apply WriteString_spec in EW as ((Hm1 & Hl1 & Hc1) & D1 & Ht1 & Ho1 & _).
  apply isOutWrite_orLog in Ho1.
  destruct r1 as [e1|];
    (destruct (Flush b1 _) as [[r2 b2] w2] eqn:EF;
     apply Flush_spec in EF as ((Hm2 & Hl2 & Hc2) & D2 & Ht2 & Ho2 & _);
     apply isOutWrite_orLog in Ho2; cbn in Hm2, Hl2, Hc2, Ht2;
     destruct r2 as [e2|]; cbn).
  - eexists _, (D1 ++ [Log "warn: failed to write disconnection from %s: %s"
                           [AConn conn; AErr e1]]
                ++ D2 ++ [Log "error: failed to flush: %s" [AErr e2]]).
    split_and!; [reflexivity|cbn; congruence..| |].
    + cbn. rewrite Ht2, Ht1.
      by repeat (progress cbn [app] || rewrite <- (assoc_L (++))).
    + rewrite !Forall_app. split_and!; try done; by repeat constructor.
  - eexists _, (D1 ++ [Log "warn: failed to write disconnection from %s: %s"
                           [AConn conn; AErr e1]] ++ D2).
    split_and!; [reflexivity|cbn; congruence..| |].
    + cbn. rewrite Ht2, Ht1.
      by repeat (progress cbn [app] || rewrite <- (assoc_L (++))).
    + rewrite !Forall_app. split_and!; try done; by repeat constructor.
  - eexists _, (D1 ++ D2 ++ [Log "error: failed to flush: %s" [AErr e2]]).
    split_and!; [reflexivity|cbn; congruence..| |].
    + cbn. rewrite Ht2, Ht1.
      by repeat (progress cbn [app] || rewrite <- (assoc_L (++))).
    + rewrite !Forall_app. split_and!; try done; by repeat constructor.
  - eexists _, (D1 ++ D2).
    split_and!; [reflexivity|cbn; congruence..| |].
    + cbn. rewrite Ht2, Ht1.
      by repeat (progress cbn [app] || rewrite <- (assoc_L (++))).
    + by apply Forall_app.
Qed.

(** X15: what an Egress handler touches.  Whatever it reads and however
    the output stream behaves, a handler writes to no peer and starts no
    handler; it leaves the listener and every other identifier of the
    registry alone.  While it is in its loop the registry is untouched and
    its socket open; when it has returned, its own identifier is gone and
    the close of its own socket is the last thing it did. *)
Theorem egress_touches_own_entry_only port conn input w :
  ∃ o w' D,
    handleOutgoing port conn input w = (o, w')
    ∧ listener w' = listener w ∧ connEnv w' = connEnv w
    ∧ (∀ p, p ≠ port → connMap w' !! p = connMap w !! p)
    ∧ connMap w' = (if o is Returned _ then delete port (connMap w) else connMap w)
    ∧ trace w' = trace w ++ D ++ (if o is Returned _ then [ConnClose conn] else [])
    ∧ Forall isOutWriteOrLog D.
Proof.
  unfold handleOutgoing. run_M.
  destruct (outgoingLoop port conn NewWriter input w) as [[o b] w1] eqn:EL.
  apply outgoingLoop_spec in EL as ((Hm1 & Hl1 & Hc1) & _ & D1 & Ht1 & Ho1).
  destruct o as [|r].
  - exists Blocked, w1, D1. rewrite app_nil_r. split_and!; try done.
    intros p _. by rewrite Hm1.
  - destruct (outgoingDeferred_frame port conn b w1)
      as (w2 & D2 & HD & Hm2 & Hl2 & Hc2 & Ht2 & Ho2).
    rewrite HD. exists (Returned r), w2, (D1 ++ D2). split_and!; try congruence.
    + intros p Hp. by rewrite Hm2, lookup_delete_ne, Hm1.
    + by rewrite Ht2, Ht1, !(assoc_L (++)).
    + by apply Forall_app.
Qed.

(** * The registry through the life of a connection *)

(** X16: registering, looking up and removing go round.  On an output
    stream that takes every write, once the Acceptor has accepted a
    connection (its port not beginning with white space, as a port of
    digits), a command [port:expr] makes exactly one write, on that
    connection, of [expr] without trailing white space; and once the
    handler of the connection has ended, the same command writes to no
    socket and leaves the warning that no connection exists for the
    port. *)
Theorem registry_round_trip conn host port w :
  SplitHostPort (RemoteAddr conn) = inl (host, port) →
  startsSpace port = false →
  reliable w →
  ∃ w1,
    acceptBody (inl conn) w = (Continue, w1)
    ∧ (∀ expr,
         sent (drop (length (trace w1))
                 (trace (incomingBody (port ++ ":" ++ expr ++ [LF], None) w1).2))
         = [(conn, TrimRightSpace expr)])
    ∧ ∀ lines data e rest,
        ∃ r w3,
          handleOutgoing port conn (((λ d, (d, None)) <$> lines) ++ (data, Some e) :: rest) w1
          = (Returned r, w3)
          ∧ ∀ expr,
              incomingBody (port ++ ":" ++ expr ++ [LF], None) w3
              = (Continue,
                 mkWorld (connMap w3) (listener w3) (outEnv w3) (connEnv w3)
                   (trace w3 ++ [Log "warn: no connection exists for %s" [AStr port]])).
Proof.
  intros Hsplit Hsp Hrel.
  pose proof (SplitHostPort_port _ _ _ Hsplit) as Hcolon.
  pose proof (TrimLeftSpace_id _ Hsp) as Htrim.
  destruct (acceptBody_reliable conn host port w Hsplit Hrel)
    as (w1 & D & HB & Hm & Ht & Ho & Hw & Hrel1).
  exists w1. split_and!; [done| |].
  - intros expr. rewrite incomingBody_to, Htrim, Hm, lookup_insert_eq by done.
    run_M. destruct (connEnv w1) as [|[err|] env]; cbn;
      rewrite <- ?(assoc_L (++)), drop_app_length; done.
  - intros lines data e rest.
    destruct (handleOutgoing_reliable port conn lines data e rest w1 Hrel1)
      as (r & w3 & D3 & HO & Hm3 & _).
    exists r, w3. split; [done|]. intros expr.
    by rewrite incomingBody_to, Htrim, Hm3, lookup_delete_eq.
Qed.

Lemma registry_round_trip_witness :
  let c := mkConn 7 "127.0.0.1:5000" in
  let w := mkWorld ∅ (Some (mkListener "127.0.0.1:40000")) [] [] [] in
  ∃ w1,
    acceptBody (inl c) w = (Continue, w1)
    ∧ sent (drop (length (trace w1))
              (trace (incomingBody ("5000" ++ ":" ++ "world" ++ [LF], None) w1).2))
      = [(c, TrimRightSpace "world")]
    ∧ ∃ r w3,
        handleOutgoing "5000" c [([], Some EOF)] w1 = (Returned r, w3)
        ∧ incomingBody ("5000" ++ ":" ++ "world" ++ [LF], None) w3
          = (Continue,
             mkWorld (connMap w3) (listener w3) (outEnv w3) (connEnv w3)
               (trace w3 ++ [Log "warn: no connection exists for %s" [AStr "5000"]])).
Proof.
  intros c w.
  destruct (registry_round_trip c "127.0.0.1" "5000" w) as (w1 & HB & Hcmd & Hend);
    [reflexivity|reflexivity|constructor|].
  exists w1. split_and!; [done|apply Hcmd|].
  destruct (Hend [] [] EOF []) as (r & w3 & HO & Hdrop).
  exists r, w3. split; [done|apply Hdrop].
Defined.

(** * The task group of [Start] *)

Lemma groupRun_app peers s1 s2 g w :
  groupRun peers (s1 ++ s2) g w
  = let '(g1, w1) := groupRun peers s1 g w in groupRun peers s2 g1 w1.
Proof.
  revert g w. induction s1 as [|p s1 IH]; intros g w; [done|].
  cbn [app groupRun]. run_M. destruct (groupStep peers p g w) as [g1 w1]. apply IH.
Qed.

(** The error of the group, once set, stays. *)
Lemma groupStep_gerr peers p g w x :
  gerr g = Some x → gerr (groupStep peers p g w).1 = Some x.
Proof.
  intros Hx. unfold groupStep. run_M. destruct p as [| |i].
  - destruct (ingress g) as [[|rd input]|]; [done| |done].
    destruct (handleIncoming [rd] w) as [[|e] w1]; cbn; [done|]. by rewrite Hx.
  - destruct (acceptor g) as [[|ar accepts]|]; [done| |done].
    destruct (handleAccept [ar] w) as [[|e] w1]; cbn; [done|]. by rewrite Hx.
  - destruct (handlers g !! i) as [[h|]|]; [|done..].
    destruct (hreads h) as [|rd reads]; [done|].
    destruct (outgoingLoop _ _ _ _ w) as [[[|e] b] w1]; [by cbn|].
    destruct (outgoingDeferred _ _ _ w1) as [[] w2]. cbn. by rewrite Hx.
Qed.

Lemma groupRun_gerr peers schedule g w x :
  gerr g = Some x → gerr (groupRun peers schedule g w).1 = Some x.
Proof.
  revert g w. induction schedule as [|p s IH]; intros g w Hx; [done|].
  cbn [groupRun]. run_M.
  pose proof (groupStep_gerr peers p g w x Hx) as H1.
  destruct (groupStep peers p g w) as [g1 w1]. by apply IH.
Qed.

Lemma Wait_Returned g r :
  Wait g = Returned r → r = gerr g ∧ ingress g = None ∧ acceptor g = None.
Proof.
  unfold Wait. destruct (ingress g), (acceptor g); try done.
  destruct (forallb _ _); [|done]. by intros [= <-].
Qed.

Lemma Wait_all g :
  ingress g = None → acceptor g = None → Forall (eq None) (handlers g) →
  Wait g = Returned (gerr g).
Proof.
  intros Hi Ha Hh. unfold Wait. rewrite Hi, Ha.
  assert (forallb (λ h : option Handler, if h is None then true else false) (handlers g)
          = true) as ->; [|done].
  induction Hh as [|h hs <- _ IH]; [done|]. exact IH.
Qed.

(** What the goroutines leave alone: the listener, and what is already in
    the trace. *)
Lemma groupStep_frame peers p g w g' w' :
  groupStep peers p g w = (g', w') →
  listener w' = listener w ∧ ∃ T, trace w' = trace w ++ T.
Proof.
  assert (Hid : ∀ g0 : Group, (g0, w) = (g', w') →
                listener w' = listener w ∧ ∃ T, trace w' = trace w ++ T).
  { intros g0 [= _ <-]. split; [done|]. exists []. by rewrite app_nil_r. }
  unfold groupStep. destruct p as [| |i].
  - destruct (ingress g) as [[|rd input]|]; try apply Hid.
    cbn [handleIncoming]. run_M.
    destruct (incomingBody rd w) as [l w1] eqn:EB.
    apply incomingBody_frame in EB as (_ & Hl & _ & D & Ht & _).
    destruct l; intros [= _ <-]; eauto.
  - destruct (acceptor g) as [[|ar accepts]|]; try apply Hid.
    unfold handleAccept. cbn [acceptLoop]. run_M.
    destruct (listener w) eqn:El; [|intros [= _ <-]; split; [done|];
                                     exists []; by rewrite app_nil_r].
    destruct (acceptBody ar w) as [lp w1] eqn:EB.
    apply acceptBody_frame in EB as (Hl & _ & _ & D & Ht & _).
    destruct lp; intros [= _ <-]; (split; [congruence|eauto]).
  - destruct (handlers g !! i) as [[h|]|]; try apply Hid.
    destruct (hreads h) as [|rd reads]; try apply Hid.
    run_M.
    destruct (outgoingLoop _ _ _ _ w) as [[o b] w1] eqn:EL.
    apply outgoingLoop_spec in EL as ((_ & Hl & _) & _ & D & Ht & _).
    destruct o as [|e]; [intros [= _ <-]; eauto|].
    destruct (outgoingDeferred_frame (hport h) (hconn h) b w1)
      as (w2 & D2 & -> & _ & Hl2 & _ & Ht2 & _).
    intros [= _ <-]. split; [congruence|].
    exists (D ++ D2 ++ [ConnClose (hconn h)]). by rewrite Ht2, Ht, <- (assoc_L (++)).
Qed.

Lemma groupRun_frame peers schedule g w g' w' :
  groupRun peers schedule g w = (g', w') →
  listener w' = listener w ∧ ∃ T, trace w' = trace w ++ T.
Proof.
  revert g w. induction schedule as [|p s IH]; intros g w; cbn [groupRun]; run_M.
  { intros [= _ <-]. split; [done|]. exists []. by rewrite app_nil_r. }
  destruct (groupStep peers p g w) as [g1 w1] eqn:ES.
  apply groupStep_frame in ES as (Hl1 & T1 & Ht1).
  intros (Hl2 & T2 & Ht2)%IH. split; [congruence|].
  exists (T1 ++ T2). by rewrite Ht2, Ht1, (assoc_L (++)).
Qed.

(** [handleAccept] has no [return nil]. *)
Lemma handleAccept_Returned accepts w r w' :
  handleAccept accepts w = (Returned r, w') → is_Some r.
Proof.
  unfold handleAccept. run_M. destruct (listener w); [|intros [= <- _]; eauto].
  revert w. induction accepts as [|ar accepts IH]; intros w; cbn [acceptLoop]; run_M; [done|].
  destruct (acceptBody ar w) as [lp w1] eqn:EB.
  destruct lp as [|e]; [apply IH|]. intros [= <- <-].
  revert EB. unfold acceptBody. destruct ar as [conn|err].
  - destruct (SplitHostPort _) as [[host port]|e']; run_M; [|intros [= <- _]; eauto].
    destruct (WriteString _ _ _) as [[[nn [e1|]] b1] w2]; [intros [= <- _]; eauto|].
    destruct (Flush _ _) as [[[e2|] b2] w3]; [intros [= <- _]; eauto|done].
  - run_M. destruct (asNetError err) as [[]|]; [done|intros [= <- _]; eauto..].
Qed.

(** When the Acceptor has returned, the group has an error. *)
Lemma groupStep_acceptor peers p g w :
  (acceptor g = None → is_Some (gerr g)) →
  let g' := (groupStep peers p g w).1 in acceptor g' = None → is_Some (gerr g').
Proof.
  intros Hinv. unfold groupStep. run_M. destruct p as [| |i].
  - destruct (ingress g) as [[|rd input]|]; [done| |done].
    destruct (handleIncoming [rd] w) as [[|e] w1]; cbn; [done|].
    intros [x Hx]%Hinv. rewrite Hx. eauto.
  - destruct (acceptor g) as [[|ar accepts]|] eqn:Ea;
      [cbn [fst]; by rewrite Ea| |cbn [fst]; auto].
    destruct (handleAccept [ar] w) as [[|e] w1] eqn:EA; cbn; [done|].
    intros _. apply handleAccept_Returned in EA as [x ->]. destruct (gerr g); cbn; eauto.
  - destruct (handlers g !! i) as [[h|]|]; [|done..].
    destruct (hreads h) as [|rd reads]; [done|].
    destruct (outgoingLoop _ _ _ _ w) as [[[|e] b] w1]; [by cbn|].
    destruct (outgoingDeferred _ _ _ w1) as [[] w2]. cbn.
    intros [x Hx]%Hinv. rewrite Hx. eauto.
Qed.

Lemma groupRun_acceptor peers schedule g w :
  (acceptor g = None → is_Some (gerr g)) →
  let g' := (groupRun peers schedule g w).1 in acceptor g' = None → is_Some (gerr g').
Proof.
  revert g w. induction schedule as [|p s IH]; intros g w Hinv; [done|].
  cbn [groupRun]. run_M.
  pose proof (groupStep_acceptor peers p g w Hinv) as H1.
  destruct (groupStep peers p g w) as [g1 w1]. by apply IH.
Qed.


Lemma groupStep_acceptor_other peers p g w :
  p ≠ PAcceptor → acceptor (groupStep peers p g w).1 = acceptor g.
Proof.
  intros Hp. unfold groupStep. run_M. destruct p as [| |i]; [|done|].
  - destruct (ingress g) as [[|rd input]|]; [done| |done].
    by destruct (handleIncoming [rd] w) as [[|e] w1].
  - destruct (handlers g !! i) as [[h|]|]; [|done..].
    destruct (hreads h) as [|rd reads]; [done|].
    destruct (outgoingLoop _ _ _ _ w) as [[[|e] b] w1]; [by cbn|].
    by destruct (outgoingDeferred _ _ _ w1) as [[] w2].
Qed.




(** [Start] past the address event: the listener is bound, and what
    follows is the run of the group. *)
Lemma Start_group addr l input accepts peers w0 w1 :
  Start addr (inl l) input accepts peers [] w0 = (Blocked, w1) →
  listener w1 = Some l
  ∧ ∀ schedule,
      Start addr (inl l) input accepts peers schedule w0
      = let '(g, w') := groupRun peers schedule (group0 input accepts) w1 in (Wait g, w').
Proof.
  unfold Start. run_M.
  set (w := mkWorld (connMap w0) (Some l) (outEnv w0) (connEnv w0) (trace w0)).
  destruct (WriteString _ _ w) as [[[nn r1] b1] w2] eqn:EW.
  apply WriteString_spec in EW as ((_ & Hl1 & _) & _).
  destruct r1 as [e1|]; [done|].
  destruct (Flush b1 w2) as [[r2 b2] w3] eqn:EF.
  apply Flush_spec in EF as ((_ & Hl2 & _) & _).
  destruct r2 as [e2|]; [done|].
  cbn [groupRun]. run_M. intros [= <-]. split; [|done].
  rewrite Hl2, Hl1. done.
Qed.

(** Once a goroutine has put an error into the group, [Start] can return
    nothing else: it is still waiting, or it returns that error, which it
    does when every goroutine has returned. *)
Lemma Start_gerr addr l input accepts peers s1 s2 w0 w1 g w2 x :
  Start addr (inl l) input accepts peers [] w0 = (Blocked, w1) →
  groupRun peers s1 (group0 input accepts) w1 = (g, w2) →
  gerr g = Some x →
  ∃ g3 w3,
    groupRun peers (s1 ++ s2) (group0 input accepts) w1 = (g3, w3)
    ∧ gerr g3 = Some x
    ∧ Start addr (inl l) input accepts peers (s1 ++ s2) w0 = (Wait g3, w3)
    ∧ (∀ r, Wait g3 = Returned r → r = Some x)
    ∧ (ingress g3 = None → acceptor g3 = None → Forall (eq None) (handlers g3) →
       Wait g3 = Returned (Some x)).
Proof.
  intros [_ HS]%Start_group Hrun Hx.
  rewrite HS, groupRun_app, Hrun.
  pose proof (groupRun_gerr peers s2 g w2 x Hx) as Hx'.
  destruct (groupRun peers s2 g w2) as [g3 w3]. cbn [fst] in Hx'.
  exists g3, w3. split_and!; try done.
  - intros r [-> _]%Wait_Returned. done.
  - intros Hi Ha Hh. by rewrite Wait_all, Hx'.
Qed.

Lemma errOnce_default x gerr0 : errOnce gerr0 (Some x) = Some (default x gerr0).
Proof. by destruct gerr0. Qed.

(** The same, for the error that the pass [p] made in the state [g] puts
    into the group. *)
Lemma Start_pass addr l input accepts peers s1 p s2 w0 w1 g w2 g' w3 x :
  Start addr (inl l) input accepts peers [] w0 = (Blocked, w1) →
  groupRun peers s1 (group0 input accepts) w1 = (g, w2) →
  groupStep peers p g w2 = (g', w3) →
  gerr g' = Some x →
  groupRun peers (s1 ++ [p]) (group0 input accepts) w1 = (g', w3)
  ∧ ∃ g3 w4,
      groupRun peers (s1 ++ p :: s2) (group0 input accepts) w1 = (g3, w4)
      ∧ gerr g3 = Some x
      ∧ Start addr (inl l) input accepts peers (s1 ++ p :: s2) w0 = (Wait g3, w4)
      ∧ (∀ r, Wait g3 = Returned r → r = Some x)
      ∧ (ingress g3 = None → acceptor g3 = None → Forall (eq None) (handlers g3) →
         Wait g3 = Returned (Some x)).
Proof.
  intros HS Hrun Hstep Hx.
  assert (Hrun' : groupRun peers (s1 ++ [p]) (group0 input accepts) w1 = (g', w3)).
  { rewrite groupRun_app, Hrun. cbn [groupRun]. run_M. by rewrite Hstep. }
  split; [done|].
  rewrite (cons_middle p s1 s2), (assoc_L (++)).
  by eapply Start_gerr.
Qed.






(** C9, as amended: with the handler at the head of its loop (after the
    reads [pre]), a failing [Flush] of a receive event ends the handler
    with an error [fatal] that wraps the failure; a failing [WriteString]
    is logged as a warning and the loop goes on with the next read.  When
    no error is pending and the event fits the buffer, the first case is
    the only one: a write on the output stream that fails or is cut short
    ends the handler.  In a session ([Start] past the address event, the
    goroutines running in any order) the pass of a handler whose [Flush]
    fails ends that goroutine after its cleanup and puts [fatal] into the
    group, unless a goroutine has failed before; from then on, whatever
    the other goroutines do, the error of the group is [fatal], or the
    earlier one, and [Start] is in [g.Wait()] until every goroutine has
    returned and then returns that error. *)
Theorem egress_receive_failure port conn pre data rest w0 b w :
  outgoingLoop port conn NewWriter pre w0 = ((Blocked, b), w) →
  let line := encode (Receive port (TrimSpace data)) in
  let input := pre ++ (data, None) :: rest in
  (∀ nn e b1 w1,
     WriteString b line w = ((nn, Some e, b1), w1) →
     outgoingLoop port conn NewWriter input w0
     = outgoingLoop port conn b1 rest
         (mkWorld (connMap w1) (listener w1) (outEnv w1) (connEnv w1)
            (trace w1 ++ [Log "warn: failed to write data %s from %s: %s"
                              [AStr data; AConn conn; AErr e]])))
  ∧ (∀ nn b1 w1 e b2 w2,
       WriteString b line w = ((nn, None, b1), w1) →
       Flush b1 w1 = ((Some e, b2), w2) →
       let fatal := Errorf "error: failed to flush: %w" [] e in
       outgoingLoop port conn NewWriter input w0 = ((Returned (Some fatal), b2), w2)
       ∧ (handleOutgoing port conn input w0).1 = Returned (Some fatal))
  ∧ (∀ n oe env,
       err b = None → length line ≤ defaultBufSize →
       outEnv w = WPart n oe :: env → is_Some oe ∨ n < length line →
       ∃ e, (handleOutgoing port conn input w0).1
            = Returned (Some (Errorf "error: failed to flush: %w" [] e)))
  ∧ (∀ addr l stdin accepts peers s1 s2 i wa wb g ws bs nn b1 w1 e b2 w2,
       Start addr (inl l) stdin accepts peers [] wa = (Blocked, wb) →
       groupRun peers s1 (group0 stdin accepts) wb = (g, ws) →
       handlers g !! i = Some (Some (mkHandler port conn bs ((data, None) :: rest))) →
       WriteString bs line ws = ((nn, None, b1), w1) →
       Flush b1 w1 = ((Some e, b2), w2) →
       let fatal := Errorf "error: failed to flush: %w" [] e in
       ∃ g' g3 w4,
         groupRun peers (s1 ++ [PHandler i]) (group0 stdin accepts) wb
         = (g', (outgoingDeferred port conn b2 w2).2)
         ∧ handlers g' !! i = Some None
         ∧ gerr g' = Some (default fatal (gerr g))
         ∧ groupRun peers (s1 ++ PHandler i :: s2) (group0 stdin accepts) wb = (g3, w4)
         ∧ gerr g3 = Some (default fatal (gerr g))
         ∧ Start addr (inl l) stdin accepts peers (s1 ++ PHandler i :: s2) wa
           = (Wait g3, w4)
         ∧ (∀ r, Wait g3 = Returned r → r = Some (default fatal (gerr g)))
         ∧ (ingress g3 = None → acceptor g3 = None → Forall (eq None) (handlers g3) →
            Wait g3 = Returned (Some (default fatal (gerr g))))).
Proof.
  intros Hpre line input.
  assert (Hstep : outgoingLoop port conn NewWriter input w0
                  = outgoingLoop port conn b ((data, None) :: rest) w).
  { subst input. by rewrite outgoingLoop_app, Hpre. }
  assert (Hflush : ∀ nn b1 w1 e b2 w2,
            WriteString b line w = ((nn, None, b1), w1) →
            Flush b1 w1 = ((Some e, b2), w2) →
            outgoingLoop port conn NewWriter input w0
            = ((Returned (Some (Errorf "error: failed to flush: %w" [] e)), b2), w2)).
  { intros nn b1 w1 e b2 w2 HW HF. rewrite Hstep.
    cbn [outgoingLoop outgoingBody]. run_M.
    change (Sprintf3 prefixReceive port (TrimSpace data)) with line.
    by rewrite HW, HF. }
  split_and!.
  - intros nn e b1 w1 HW. rewrite Hstep. cbn [outgoingLoop outgoingBody]. run_M.
    change (Sprintf3 prefixReceive port (TrimSpace data)) with line.
    by rewrite HW.
  - intros nn b1 w1 e b2 w2 HW HF fatal. split.
    + by eapply Hflush.
    + eapply handleOutgoing_result. by eapply Hflush.
  - intros n oe env Hb Hfit Henv Hfail.
    apply outgoingLoop_spec in Hpre as (_ & Hidle & _).
    specialize (Hidle idle_NewWriter Hb).
    assert (HW : WriteString b line w = ((length line, None, mkWriter line None), w)).
    { rewrite WriteString_fits; [by rewrite Hidle|done|].
      unfold Available. rewrite Hidle. cbn [length]. by rewrite Nat.sub_0_r. }
    destruct (Flush_fails (mkWriter line None) w n oe env) as (e & b2 & w2 & HF);
      [done| |done|done|].
    { subst line. by destruct port. }
    exists e. eapply handleOutgoing_result. by eapply Hflush.
  - intros addr l stdin accepts peers s1 s2 i wa wb g ws bs nn b1 w1 e b2 w2
      HS Hrun Hh HW HF fatal.
    set (g' := mkGroup (ingress g) (acceptor g) (<[i := None]> (handlers g))
                 (Some (default fatal (gerr g)))).
    assert (Hpass : groupStep peers (PHandler i) g ws
                    = (g', (outgoingDeferred port conn b2 w2).2)).
    { unfold groupStep. rewrite Hh. cbn [hreads hport hconn hwriter].
      cbn [outgoingLoop outgoingBody]. run_M.
      change (Sprintf3 prefixReceive port (TrimSpace data)) with line.
      rewrite HW, HF.
      destruct (outgoingDeferred port conn b2 w2) as [[] w3].
      subst g'. by rewrite <- errOnce_default. }
    destruct (Start_pass addr l stdin accepts peers s1 (PHandler i) s2 wa wb g ws g' _
                (default fatal (gerr g)) HS Hrun Hpass eq_refl)
      as (Hrun' & g3 & w4 & Hrun3 & He3 & HS' & Hr & Hall).
    exists g', g3, w4. split_and!; try done.
    subst g'. cbn [handlers]. apply list_lookup_insert_eq.
    by apply lookup_lt_Some in Hh.
Qed.

Lemma egress_receive_failure_witness :
  let c := mkConn 7 "127.0.0.1:5000" in
  let fatal := Errorf "error: failed to flush: %w" [] ErrClosedPipe in
  let closed := NetError false "accept tcp 127.0.0.1:40000: use of closed network connection" in
  (handleOutgoing "5000" c [("hi" ++ [LF], None)]
     (New [WPart 0 (Some ErrClosedPipe)] [])).1
  = Returned (Some fatal)
  ∧ ∃ w4,
      Start "127.0.0.1:0" (inl (mkListener "127.0.0.1:40000")) [([], Some EOF)]
        [inl c; inr closed] (λ _, [("hi" ++ [LF], None)])
        [PAcceptor; PHandler 0; PIngress; PAcceptor]
        (New [WAll; WAll; WPart 0 (Some ErrClosedPipe)] [])
      = (Returned (Some fatal), w4).
Proof.
  intros c fatal closed.
  set (w := New [WPart 0 (Some ErrClosedPipe)] []).
  destruct (egress_receive_failure "5000" c [] ("hi" ++ [LF]) [] w NewWriter w eq_refl)
    as (_ & Hflush & _ & Hsession).
  split.
  - refine (proj2 (Hflush _ _ _ ErrClosedPipe _ _ _ _)).
    + vm_compute. reflexivity.
    + vm_compute. reflexivity.
  - set (l := mkListener "127.0.0.1:40000").
    set (peers := λ _ : Conn, [("hi" ++ [LF], None)] : list ReadResult).
    set (input := [([], Some EOF)] : list ReadResult).
    set (accepts := [inl c; inr closed] : list AcceptResult).
    set (wa := New [WAll; WAll; WPart 0 (Some ErrClosedPipe)] []).
    set (wb := (Start "127.0.0.1:0" (inl l) input accepts peers [] wa).2).
    set (gw := groupRun peers [PAcceptor] (group0 input accepts) wb).
    set (ws := WriteString NewWriter (encode (Receive "5000" (TrimSpace ("hi" ++ [LF])))) gw.2).
    set (fl := Flush ws.1.2 ws.2).
    destruct (Hsession "127.0.0.1:0" l input accepts peers [PAcceptor] [PIngress; PAcceptor]
                0 wa wb gw.1 gw.2 NewWriter ws.1.1.1 ws.1.2 ws.2 ErrClosedPipe
                fl.1.2 fl.2)
      as (g' & g3 & w4 & _ & _ & _ & Hrun3 & _ & HS & _ & Hall).
    + vm_compute. reflexivity.
    + vm_compute. reflexivity.
    + vm_compute. reflexivity.
    + vm_compute. reflexivity.
    + vm_compute. reflexivity.
    + exists w4. etrans; [exact HS|]. f_equal.
      pose proof (f_equal fst Hrun3) as Hg3. cbn [fst] in Hg3.
      rewrite Hall; [vm_compute; reflexivity|rewrite <- Hg3; vm_compute; by repeat constructor..].
Defined.

(** C9, as stated, fails: an event longer than the buffer is passed to
    the output stream by [WriteString] itself; when that write fails the
    handler logs a warning, reads on and, at the end of the peer's
    stream, returns [nil]. *)
Lemma receive_write_failure_not_fatal :
  ¬ receive_write_failure_fatal "5000" (mkConn 7 "127.0.0.1:5000")
      (replicate 5000 "x"%char ++ [LF]) [([], Some EOF)]
      (New [WPart 0 (Some ErrClosedPipe)] []).
Proof.
  intros H. edestruct H as [err Herr]; [vm_compute; reflexivity|].
  vm_compute in Herr. discriminate Herr.
Qed.

(** * Beyond the loops: [Start] and [run] *)

(** X1: on an output stream that takes every write, [Start] binds the
    listener and writes the address event [a:<address>], and nothing else,
    before any goroutine of the group runs; the registry is as it was, and
    [Start] waits for the group.  Whatever the goroutines then do and in
    whatever order, it comes after the address event and leaves the
    listener bound. *)
Theorem Start_announces_address addr l input accepts peers w :
  reliable w →
  ∃ w1 D,
    Start addr (inl l) input accepts peers [] w = (Blocked, w1)
    ∧ listener w1 = Some l ∧ connMap w1 = connMap w
    ∧ trace w1 = trace w ++ D ∧ Forall isOutWrite D
    ∧ written D = encode (Address (Addr l))
    ∧ ∀ schedule, ∃ o w' T,
        Start addr (inl l) input accepts peers schedule w = (o, w')
        ∧ listener w' = Some l ∧ trace w' = trace w ++ D ++ T.
Proof.
  intros Hrel.
  set (w0 := mkWorld (connMap w) (Some l) (outEnv w) (connEnv w) (trace w)).
  destruct (emit_reliable NewWriter (encode (Address (Addr l))) w0)
    as (nn & b1 & w1 & w2 & D & HW & HF & (Hm & Hl & _) & Ht & Ho & Hw & Hrel');
    [done..|].
  assert (HS : Start addr (inl l) input accepts peers [] w = (Blocked, w2)).
  { unfold Start. run_M.
    change (Sprintf2 prefixAddress (Addr l)) with (encode (Address (Addr l))).
    fold w0. by rewrite HW, HF. }
  exists w2, D. split_and!; try done.
  intros schedule. pose proof HS as [_ Hgroup]%Start_group.
  rewrite Hgroup.
  destruct (groupRun peers schedule (group0 input accepts) w2) as [g w'] eqn:Hrun.
  apply groupRun_frame in Hrun as (Hl' & T & Ht').
  exists (Wait g), w', T. split_and!; [done|by rewrite Hl', Hl|].
  by rewrite Ht', Ht, <- (assoc_L (++)).
Qed.

Lemma Start_announces_address_witness :
  let l := mkListener "127.0.0.1:40000" in
  let c := mkConn 7 "127.0.0.1:5000" in
  ∃ w1 D,
    Start "127.0.0.1:0" (inl l) [("5000:world" ++ [LF], None)] [inl c]
      (λ _, [("hello" ++ [LF], None)]) [] (New [] []) = (Blocked, w1)
    ∧ listener w1 = Some l ∧ connMap w1 = connMap (New [] [])
    ∧ trace w1 = trace (New [] []) ++ D ∧ Forall isOutWrite D
    ∧ written D = encode (Address (Addr l))
    ∧ ∀ schedule, ∃ o w' T,
        Start "127.0.0.1:0" (inl l) [("5000:world" ++ [LF], None)] [inl c]
          (λ _, [("hello" ++ [LF], None)]) schedule (New [] []) = (o, w')
        ∧ listener w' = Some l ∧ trace w' = trace (New [] []) ++ D ++ T.
Proof.
  intros l c.
  apply (Start_announces_address "127.0.0.1:0" l [("5000:world" ++ [LF], None)] [inl c]
           (λ _, [("hello" ++ [LF], None)]) (New [] [])).
  constructor.
Defined.

(** X2: [Start] fails before any goroutine is started: when the listener
    cannot be bound it returns the wrapped error and leaves the world
    untouched; when the output stream refuses or cuts short the address
    event (one that fits the buffer) it returns the flush error, with the
    listener bound and left open.  What the goroutines would have met
    plays no part. *)
Theorem Start_fails_early addr input accepts peers schedule w :
  (∀ err,
     Start addr (inr err) input accepts peers schedule w
     = (Returned (Some (Errorf "failed to listen TCP on %s: %w" [addr] err)), w))
  ∧ (∀ l n oe env,
       length (encode (Address (Addr l))) ≤ defaultBufSize →
       outEnv w = WPart n oe :: env →
       is_Some oe ∨ n < length (encode (Address (Addr l))) →
       ∃ e w',
         Start addr (inl l) input accepts peers schedule w
         = (Returned (Some (Errorf "failed to flush: %w" [] e)), w')
         ∧ listener w' = Some l ∧ connMap w' = connMap w
         ∧ Forall isOutWrite (drop (length (trace w)) (trace w'))).
Proof.
  split; [done|].
  intros l n oe env Hfit Henv Hfail.
  set (line := encode (Address (Addr l))) in *.
  set (w0 := mkWorld (connMap w) (Some l) (outEnv w) (connEnv w) (trace w)).
  assert (HW : WriteString NewWriter line w0
               = ((length line, None, mkWriter line None), w0)).
  { rewrite WriteString_fits; [done|done|].
    unfold Available. cbn [Bufio.buf length]. by rewrite Nat.sub_0_r. }
  destruct (Flush_fails (mkWriter line None) w0 n oe env) as (e & b2 & w2 & HF);
    [done| |done|done|].
  { subst line. by destruct (Addr l). }
  pose proof HF as ((Hm & Hl & _) & D & Ht & Ho & _)%Flush_spec.
  exists e, w2. split_and!; [|done|done|].
  - unfold Start. run_M.
    change (Sprintf2 prefixAddress (Addr l)) with line. fold w0.
    by rewrite HW, HF.
  - rewrite Ht. cbn. by rewrite drop_app_length.
Qed.

Lemma Start_fails_early_witness :
  let l := mkListener "127.0.0.1:40000" in
  let w := New [WPart 0 (Some ErrClosedPipe)] [] in
  ∃ e w',
    Start "127.0.0.1:0" (inl l) [([], Some EOF)] [] (λ _, []) [PIngress] w
    = (Returned (Some (Errorf "failed to flush: %w" [] e)), w')
    ∧ listener w' = Some l ∧ connMap w' = connMap w
    ∧ Forall isOutWrite (drop (length (trace w)) (trace w')).
Proof.
  intros l w.
  apply (proj2 (Start_fails_early "127.0.0.1:0" [([], Some EOF)] [] (λ _, []) [PIngress] w)
           l 0 (Some ErrClosedPipe) []).
  - vm_compute. lia.
  - reflexivity.
  - left. by eexists.
Defined.

(** [Start] has no way to return [nil]: it returns when every goroutine
    has, and [handleAccept] returns errors only. *)
Lemma Start_Returned addr listen input accepts peers schedule w r w' :
  Start addr listen input accepts peers schedule w = (Returned r, w') → is_Some r.
Proof.
  unfold Start. destruct listen as [l|e]; run_M; [|intros [= <- _]; eauto].
  destruct (WriteString _ _ _) as [[[nn [e1|]] b1] w1]; [intros [= <- _]; eauto|].
  destruct (Flush _ _) as [[[e2|] b2] w2]; [intros [= <- _]; eauto|].
  pose proof (groupRun_acceptor peers schedule (group0 input accepts) w2) as Hinv.
  destruct (groupRun peers schedule (group0 input accepts) w2) as [g w3].
  intros [= HW _]. apply Wait_Returned in HW as (-> & _ & Ha).
  apply Hinv; done.
Qed.

(** X3: the exit code of [run].  When [run] returns, the code is 1 and
    the error is the one [Start] returned: there is no session that ends
    with the code 0, since [Start] returns only when every goroutine has
    and the Acceptor returns errors only.  [run] has not returned while
    [Start] is waiting for the group.  When the listener cannot be bound
    the code is 1 with the wrapped listen error. *)
Theorem run_exit_code addr listen input accepts peers schedule oenv cenv :
  let outcome := (Start addr listen input accepts peers schedule (New oenv cenv)).1 in
  let result := run addr listen input accepts peers schedule oenv cenv in
  result ≠ Some (0, None)
  ∧ (∀ code err, result = Some (code, err) →
       code = 1 ∧ is_Some err ∧ outcome = Returned err)
  ∧ (result = None ↔ outcome = Blocked)
  ∧ (∀ e, listen = inr e →
       result = Some (1, Some (Errorf "failed to listen TCP on %s: %w" [addr] e))).
Proof.
  intros outcome result. subst outcome result. unfold run.
  destruct (Start addr listen input accepts peers schedule (New oenv cenv))
    as [[|[e|]] w'] eqn:ES; cbn [fst].
  - split_and!; [done|done|done|].
    intros e ->. discriminate ES.
  - split_and!; [done| |done|].
    + intros code err [= <- <-]. eauto.
    + intros e' ->. by injection ES as <- _.
  - by apply Start_Returned in ES as [??].
Qed.

Lemma run_exit_code_witness :
  let closed := NetError false "accept tcp 127.0.0.1:40000: use of closed network connection" in
  run "127.0.0.1:0" (inl (mkListener "127.0.0.1:40000")) [([], Some EOF)] [inr closed]
    (λ _, []) [PIngress; PAcceptor] [] []
  = Some (1, Some (Errorf "failed to accept connection by non tempoary error: %w" [] closed))
  ∧ run "127.0.0.1:0" (inl (mkListener "127.0.0.1:40000")) [([], Some EOF)] [inr closed]
      (λ _, []) [PIngress; PAcceptor] [] [] ≠ Some (0, None)
  ∧ run "127.0.0.1:0" (inr (ErrOther "listen tcp: address already in use")) [] [] (λ _, [])
      [] [] []
    = Some (1, Some (Errorf "failed to listen TCP on %s: %w" ["127.0.0.1:0" : bytes]
                            (ErrOther "listen tcp: address already in use"))).
Proof.
  intros closed. split_and!.
  - vm_compute. reflexivity.
  - apply (run_exit_code "127.0.0.1:0" (inl (mkListener "127.0.0.1:40000"))
             [([], Some EOF)] [inr closed] (λ _, []) [PIngress; PAcceptor] [] []).
  - by apply (run_exit_code "127.0.0.1:0" (inr (ErrOther "listen tcp: address already in use"))
                [] [] (λ _, []) [] [] []).
Defined.

(** While the Acceptor meets temporary errors only, it stays in its loop. *)
Lemma groupRun_acceptor_waits peers schedule g w l temps :
  listener w = Some l →
  acceptor g = Some (inr <$> temps) →
  Forall (λ t, asNetError t = Some true) temps →
  ∃ temps', acceptor (groupRun peers schedule g w).1 = Some (inr <$> temps').
Proof.
  revert g w temps. induction schedule as [|p s IH]; intros g w temps Hl Hg Htmp.
  { by exists temps. }
  cbn [groupRun]. run_M.
  destruct (decide (p = PAcceptor)) as [->|Hp].
  - destruct temps as [|t temps].
    + unfold groupStep. rewrite Hg. cbn [fmap list_fmap]. run_M. by eapply IH.
    + apply Forall_cons in Htmp as [Ht Htmp].
      unfold groupStep. rewrite Hg. unfold handleAccept.
      cbn [fmap list_fmap acceptLoop acceptBody]. run_M. rewrite Hl, Ht.
      by eapply IH.
  - pose proof (groupStep_acceptor_other peers p g w Hp) as H1.
    destruct (groupStep peers p g w) as [g1 w1] eqn:ES.
    apply groupStep_frame in ES as [Hl1 _].
    apply (IH g1 w1 temps); [congruence|cbn in H1; congruence|done].
Qed.

(** X17: an error does not end the session by itself.  [Start] returns
    only when every goroutine of the group has returned, and nothing
    interrupts [listener.Accept()]: while the Acceptor meets nothing but
    temporary errors (or nothing at all), [Start] stays in [g.Wait()],
    whatever the other goroutines have met and returned and in whatever
    order they ran. *)
Theorem Start_waits_for_acceptor addr l input temps peers schedule w w1 :
  Forall (λ t, asNetError t = Some true) temps →
  Start addr (inl l) input (inr <$> temps) peers [] w = (Blocked, w1) →
  (Start addr (inl l) input (inr <$> temps) peers schedule w).1 = Blocked.
Proof.
  intros Htmp [Hl ->]%Start_group.
  destruct (groupRun_acceptor_waits peers schedule (group0 input (inr <$> temps)) w1 l temps
              Hl eq_refl Htmp) as [temps' Hacc].
  destruct (groupRun peers schedule _ w1) as [g w']. cbn [fst] in *.
  unfold Wait. rewrite Hacc. by destruct (ingress g).
Qed.

Lemma Start_waits_for_acceptor_witness :
  let tmp := NetError true "accept tcp 127.0.0.1:40000: accept4: too many open files" in
  let input : list ReadResult := [([], Some (ErrOther "read /dev/stdin: input/output error"))] in
  (Start "127.0.0.1:0" (inl (mkListener "127.0.0.1:40000")) input (inr <$> [tmp]) (λ _, [])
     [PIngress; PAcceptor; PAcceptor; PIngress] (New [] [])).1 = Blocked.
Proof.
  intros tmp input.
  apply (Start_waits_for_acceptor "127.0.0.1:0" (mkListener "127.0.0.1:40000") input [tmp]
           (λ _, []) [PIngress; PAcceptor; PAcceptor; PIngress] (New [] [])
           (Start "127.0.0.1:0" (inl (mkListener "127.0.0.1:40000")) input (inr <$> [tmp])
              (λ _, []) [] (New [] [])).2).
  - by repeat constructor.
  - vm_compute. reflexivity.
Defined.

(** * A goroutine that runs alone *)

Lemma groupRun_ingress_idle peers n g w :
  ingress g = None ∨ ingress g = Some [] →
  groupRun peers (replicate n PIngress) g w = (g, w).
Proof.
  intros Hg. induction n as [|n IH]; [done|].
  cbn [replicate groupRun]. run_M. unfold groupStep.
  destruct Hg as [-> | ->]; exact IH.
Qed.

(** X18: the Ingress goroutine under the scheduler is [handleIncoming].
    [n] passes of the Ingress goroutine alone leave the world as
    [handleIncoming] leaves it on the first [n] reads of the input stream;
    the goroutine is still in its loop, at the next read, when
    [handleIncoming] is, and has returned when it has, its return value
    going to the group through [errOnce].  The other goroutines are as
    they were. *)
Theorem ingress_alone peers n input g w :
  ingress g = Some input →
  ∃ g',
    groupRun peers (replicate n PIngress) g w = (g', (handleIncoming (take n input) w).2)
    ∧ acceptor g' = acceptor g ∧ handlers g' = handlers g
    ∧ match (handleIncoming (take n input) w).1 with
      | Blocked => ingress g' = Some (drop n input) ∧ gerr g' = gerr g
      | Returned r => ingress g' = None ∧ gerr g' = errOnce (gerr g) r
      end.
Proof.
  revert input g w. induction n as [|n IH]; intros input g w Hg.
  { exists g. by rewrite take_0, drop_0. }
  destruct input as [|rd input].
  { exists g. rewrite groupRun_ingress_idle by auto. by rewrite take_nil, drop_nil. }
  cbn [replicate groupRun take drop handleIncoming]. run_M.
  unfold groupStep. rewrite Hg. cbn [handleIncoming]. run_M.
  destruct (incomingBody rd w) as [[|e] w1].
  - destruct (IH input (mkGroup (Some input) (acceptor g) (handlers g) (gerr g)) w1 eq_refl)
      as (g' & Hrun & Ha & Hh & Ho).
    by exists g'.
  - rewrite groupRun_ingress_idle by auto. by eexists.
Qed.

Lemma ingress_alone_witness :
  let c := mkConn 7 "127.0.0.1:5000" in
  let g := mkGroup (Some [("5000:world" ++ [LF], None); ([], Some EOF)]) (Some []) [] None in
  let w := mkWorld {[ ("5000" : bytes) := c ]} None [] [] [] in
  ∃ g',
    groupRun (λ _, []) (replicate 2 PIngress) g w
    = (g', (handleIncoming (take 2 [("5000:world" ++ [LF], None); ([], Some EOF)]) w).2)
    ∧ acceptor g' = acceptor g ∧ handlers g' = handlers g
    ∧ match (handleIncoming (take 2 [("5000:world" ++ [LF], None); ([], Some EOF)]) w).1 with
      | Blocked => ingress g' = Some (drop 2 [("5000:world" ++ [LF], None); ([], Some EOF)])
                   ∧ gerr g' = gerr g
      | Returned r => ingress g' = None ∧ gerr g' = errOnce (gerr g) r
      end.
Proof.
  intros c g w.
  apply (ingress_alone (λ _, []) 2 [("5000:world" ++ [LF], None); ([], Some EOF)] g w).
  reflexivity.
Defined.

Lemma groupRun_handler_idle peers n i g w :
  (∀ h, handlers g !! i = Some (Some h) → hreads h = []) →
  groupRun peers (replicate n (PHandler i)) g w = (g, w).
Proof.
  intros Hg. induction n as [|n IH]; [done|].
  cbn [replicate groupRun]. run_M. unfold groupStep.
  destruct (handlers g !! i) as [[h|]|] eqn:Eh; try exact IH.
  rewrite (Hg h eq_refl). exact IH.
Qed.

Lemma groupRun_handler_loop peers n i port conn b input g w :
  handlers g !! i = Some (Some (mkHandler port conn b input)) →
  ∃ g',
    groupRun peers (replicate n (PHandler i)) g w
    = (g', match outgoingLoop port conn b (take n input) w with
           | ((Blocked, _), w1) => w1
           | ((Returned _, b'), w1) => (outgoingDeferred port conn b' w1).2
           end)
    ∧ ingress g' = ingress g ∧ acceptor g' = acceptor g
    ∧ match (outgoingLoop port conn b (take n input) w).1 with
      | (Blocked, b') =>
          handlers g' = <[i := Some (mkHandler port conn b' (drop n input))]> (handlers g)
          ∧ gerr g' = gerr g
      | (Returned r, _) =>
          handlers g' = <[i := None]> (handlers g) ∧ gerr g' = errOnce (gerr g) r
      end.
Proof.
  revert input b g w. induction n as [|n IH]; intros input b g w Hg.
  { exists g. rewrite take_0, drop_0. cbn. split_and!; try done.
    by rewrite list_insert_id. }
  destruct input as [|rd input].
  { exists g. rewrite groupRun_handler_idle.
    - rewrite take_nil, drop_nil. cbn. split_and!; try done. by rewrite list_insert_id.
    - intros h Hh. rewrite Hg in Hh. by injection Hh as <-. }
  cbn [replicate groupRun take drop outgoingLoop]. run_M.
  unfold groupStep. rewrite Hg. cbn [hreads hport hconn hwriter outgoingLoop]. run_M.
  pose proof (lookup_lt_Some _ _ _ Hg) as Hi.
  destruct (outgoingBody port conn b rd w) as [[[|e] b1] w1].
  - set (g1 := mkGroup (ingress g) (acceptor g)
                 (<[i := Some (mkHandler port conn b1 input)]> (handlers g)) (gerr g)).
    destruct (IH input b1 g1 w1) as (g' & Hrun & Hin & Ha & Ho).
    { subst g1. cbn [handlers]. by apply list_lookup_insert_eq. }
    exists g'. split_and!; try done.
    destruct (outgoingLoop port conn b1 (take n input) w1) as [[[|r] b'] w2];
      cbn [fst] in *; subst g1; cbn [handlers gerr] in Ho;
      by rewrite list_insert_insert_eq in Ho.
  - destruct (outgoingDeferred port conn b1 w1) as [[] w2] eqn:ED. cbn [snd fst].
    rewrite groupRun_handler_idle; [by eexists|].
    intros h. cbn [handlers]. by rewrite list_lookup_insert_eq.
Qed.

(** X19: an Egress handler under the scheduler is [handleOutgoing].  [n]
    passes of a handler just started, alone, leave the world as
    [handleOutgoing] leaves it on the first [n] reads of its socket, the
    deferred cleanup included when it has returned; its return value goes
    to the group through [errOnce].  The other goroutines are as they
    were. *)
Theorem handler_alone peers n i port conn input g w :
  handlers g !! i = Some (Some (mkHandler port conn NewWriter input)) →
  ∃ g',
    groupRun peers (replicate n (PHandler i)) g w
    = (g', (handleOutgoing port conn (take n input) w).2)
    ∧ ingress g' = ingress g ∧ acceptor g' = acceptor g
    ∧ match (handleOutgoing port conn (take n input) w).1 with
      | Blocked =>
          (∃ b, handlers g' = <[i := Some (mkHandler port conn b (drop n input))]> (handlers g))
          ∧ gerr g' = gerr g
      | Returned r =>
          handlers g' = <[i := None]> (handlers g) ∧ gerr g' = errOnce (gerr g) r
      end.
Proof.
  intros Hg.
  destruct (groupRun_handler_loop peers n i port conn NewWriter input g w Hg)
    as (g' & Hrun & Hin & Ha & Ho).
  exists g'. unfold handleOutgoing. run_M.
  destruct (outgoingLoop port conn NewWriter (take n input) w) as [[[|r] b'] w1];
    cbn [fst snd] in *.
  - destruct Ho as [Hh He]. split_and!; try done. by exists b'.
  - destruct (outgoingDeferred port conn b' w1) as [[] w2]. by cbn [fst snd] in *.
Qed.

Lemma handler_alone_witness :
  let c := mkConn 7 "127.0.0.1:5000" in
  let input : list ReadResult := [("hello" ++ [LF], None); ([], Some EOF)] in
  let g := mkGroup (Some []) (Some []) [Some (mkHandler "5000" c NewWriter input)] None in
  let w := mkWorld {[ ("5000" : bytes) := c ]} None [] [] [] in
  ∃ g',
    groupRun (λ _, []) (replicate 2 (PHandler 0)) g w
    = (g', (handleOutgoing "5000" c (take 2 input) w).2)
    ∧ ingress g' = ingress g ∧ acceptor g' = acceptor g
    ∧ match (handleOutgoing "5000" c (take 2 input) w).1 with
      | Blocked =>
          (∃ b, handlers g'
                = <[0 := Some (mkHandler "5000" c b (drop 2 input))]> (handlers g))
          ∧ gerr g' = gerr g
      | Returned r =>
          handlers g' = <[0 := None]> (handlers g) ∧ gerr g' = errOnce (gerr g) r
      end.
Proof.
  intros c input g w.
  apply (handler_alone (λ _, []) 2 0 "5000" c input g w). reflexivity.
Defined.

Lemma groupRun_acceptor_idle peers n g w :
  acceptor g = None ∨ acceptor g = Some [] →
  groupRun peers (replicate n PAcceptor) g w = (g, w).
Proof.
  intros Hg. induction n as [|n IH]; [done|].
  cbn [replicate groupRun]. run_M. unfold groupStep.
  destruct Hg as [-> | ->]; exact IH.
Qed.

(** X20: the Acceptor under the scheduler is [handleAccept].  With the
    listener bound, [n] passes of the Acceptor alone leave the world as
    [handleAccept] leaves it on the first [n] accepts; the group has one
    new handler, at the head of its loop with an empty buffer, for each
    [g.Go] of these passes, in their order; the Acceptor is still in its
    loop when [handleAccept] is and has returned when it has, its return
    value going to the group through [errOnce]. *)
Theorem acceptor_alone peers n accepts l g w :
  listener w = Some l →
  acceptor g = Some accepts →
  let w' := (handleAccept (take n accepts) w).2 in
  ∃ g',
    groupRun peers (replicate n PAcceptor) g w = (g', w')
    ∧ ingress g' = ingress g
    ∧ handlers g'
      = handlers g ++ ((λ pc, Some (mkHandler pc.1 pc.2 NewWriter (peers pc.2)))
                         <$> started (drop (length (trace w)) (trace w')))
    ∧ match (handleAccept (take n accepts) w).1 with
      | Blocked => acceptor g' = Some (drop n accepts) ∧ gerr g' = gerr g
      | Returned r => acceptor g' = None ∧ gerr g' = errOnce (gerr g) r
      end.
Proof.
  revert accepts g w. induction n as [|n IH]; intros accepts g w Hl Hg.
  { exists g. rewrite take_0, drop_0, (handleAccept_listening l) by done.
    cbn. rewrite drop_all. cbn. by rewrite app_nil_r. }
  destruct accepts as [|ar accepts].
  { exists g. rewrite groupRun_acceptor_idle by auto.
    rewrite take_nil, drop_nil, (handleAccept_listening l) by done.
    cbn. rewrite drop_all. cbn. by rewrite app_nil_r. }
  cbn [replicate groupRun take drop]. run_M.
  unfold groupStep. rewrite Hg. run_M. rewrite !(handleAccept_listening l) by done.
  cbn [acceptLoop]. run_M.
  destruct (acceptBody ar w) as [[|e] w1] eqn:EB;
    pose proof EB as (Hl1 & _ & _ & D1 & Ht1 & _)%acceptBody_frame.
  - set (g1 := mkGroup (ingress g) (Some accepts)
                 (handlers g ++ ((λ pc, Some (mkHandler pc.1 pc.2 NewWriter (peers pc.2)))
                                   <$> started (drop (length (trace w)) (trace w1))))
                 (gerr g)).
    destruct (IH accepts g1 w1) as (g' & Hrun & Hin & Hh & Ho); [congruence|done|].
    rewrite (handleAccept_listening l) in Hrun, Hh, Ho by congruence.
    exists g'. split_and!; try done.
    pose proof Hrun as (_ & D2 & Ht2)%groupRun_frame.
    rewrite Hh. subst g1. cbn [handlers].
    assert (drop (length (trace w1)) (trace (acceptLoop (take n accepts) w1).2) = D2) as ->
      by (rewrite Ht2; apply drop_app_length).
    assert (drop (length (trace w)) (trace (acceptLoop (take n accepts) w1).2) = D1 ++ D2)
      as -> by (rewrite Ht2, Ht1, <- (assoc_L (++)); apply drop_app_length).
    assert (drop (length (trace w)) (trace w1) = D1) as ->
      by (rewrite Ht1; apply drop_app_length).
    by rewrite started_app, fmap_app, (assoc_L (++)).
  - rewrite groupRun_acceptor_idle by auto. by eexists.
Qed.

Lemma acceptor_alone_witness :
  let c := mkConn 7 "127.0.0.1:5000" in
  let closed := NetError false "accept tcp 127.0.0.1:40000: use of closed network connection" in
  let accepts : list AcceptResult := [inl c; inr closed] in
  let peers := λ _ : Conn, [("hello" ++ [LF], None)] : list ReadResult in
  let g := mkGroup (Some []) (Some accepts) [] None in
  let w := mkWorld ∅ (Some (mkListener "127.0.0.1:40000")) [] [] [] in
  let w' := (handleAccept (take 2 accepts) w).2 in
  ∃ g',
    groupRun peers (replicate 2 PAcceptor) g w = (g', w')
    ∧ ingress g' = ingress g
    ∧ handlers g'
      = handlers g ++ ((λ pc, Some (mkHandler pc.1 pc.2 NewWriter (peers pc.2)))
                         <$> started (drop (length (trace w)) (trace w')))
    ∧ match (handleAccept (take 2 accepts) w).1 with
      | Blocked => acceptor g' = Some (drop 2 accepts) ∧ gerr g' = gerr g
      | Returned r => acceptor g' = None ∧ gerr g' = errOnce (gerr g) r
      end.
Proof.
  intros c closed accepts peers g w.
  by apply (acceptor_alone peers 2 accepts (mkListener "127.0.0.1:40000") g w).
Defined.
